(** * YAGOO directory server: scoring, filtering, ranking and aggregation

    A shallow embedding of [src/index.ts] and the properties of its
    specification.  The catalog module ([AGENTS], [CATEGORY_LABELS] and the
    [Agent] type, imported by the source from [./data.js]) is not part of the
    sources at hand: the two tables are section variables and the record type
    follows the fields that [index.ts] reads.

    Strings are sequences of UTF-16 code units in the source; here a
    [string] holds one code unit below 256 per character, and
    [toLowerCase], [isWhiteSpace] are the ECMAScript functions on that
    range.  Scores are small integers in the source (doubles holding exact
    integers); they are [Z] here. *)

From stdpp Require Import gmap strings.
From Stdlib Require Import List ZArith Ascii Sorted Permutation Lia DecimalString.
Import ListNotations.

Local Open Scope Z_scope.

(** ** ECMAScript string primitives *)

Module Js.

(** [\s] of a regular expression: WhiteSpace and LineTerminator code
    units (TAB, LF, VT, FF, CR, SP, NBSP below 256). *)
Definition isWhiteSpace (c : ascii) : bool :=
  let n := N_of_ascii c in
  ((9 <=? n) && (n <=? 13) || (n =? 32) || (n =? 160))%N.

(** Lower-case mapping of one code unit: A-Z and the Latin-1 capitals
    U+00C0..U+00DE (U+00D7, the multiplication sign, is not a letter). *)
Definition lowerChar (c : ascii) : ascii :=
  let n := N_of_ascii c in
  if ((65 <=? n) && (n <=? 90) ||
      (192 <=? n) && (n <=? 222) && negb (n =? 215))%N
  then ascii_of_N (n + 32) else c.

(** [s.toLowerCase()] *)
Fixpoint toLowerCase (s : string) : string :=
  match s with
  | EmptyString => EmptyString
  | String c s' => String (lowerChar c) (toLowerCase s')
  end.

(** [s.includes(t)]: [t] occurs in [s] as a contiguous substring. *)
Fixpoint includes (s t : string) : bool :=
  if String.prefix t s then true
  else match s with
       | EmptyString => false
       | String _ s' => includes s' t
       end.

(** [s.split(/\s+/)]: the pieces between maximal runs of white space;
    a leading or trailing run leaves an empty piece at that end.
    [inSep] holds while the scan is inside a separator run. *)
Fixpoint splitRun (inSep : bool) (cur s : string) : list string :=
  match s with
  | EmptyString => [cur]
  | String c s' =>
      if isWhiteSpace c
      then if inSep then splitRun true cur s'
           else cur :: splitRun true EmptyString s'
      else splitRun false (cur +:+ String c EmptyString) s'
  end.

Definition splitWhiteSpace (s : string) : list string :=
  splitRun false EmptyString s.

(** [l.join(sep)] on an array of strings. *)
Definition join (sep : string) (l : list string) : string :=
  String.concat sep l.

(** Truthiness of a string: only the empty string is falsy. *)
Definition truthy (s : string) : bool :=
  match s with EmptyString => false | String _ _ => true end.

(** [x || d] where [x] is a string or [undefined]. *)
Definition orElse (x : option string) (d : string) : string :=
  match x with
  | Some s => if truthy s then s else d
  | None => d
  end.

(** Truthiness of an optional string (a condition [if (x)] or [x ? .. : ..]). *)
Definition present (x : option string) : bool :=
  match x with
  | Some s => truthy s
  | None => false
  end.

(** [String(n)] for a non-negative integer (array lengths and counters). *)
Definition ofNat (n : nat) : string :=
  NilEmpty.string_of_uint (Nat.to_uint n).

End Js.

(** ** The data model *)

Module McpConfig.
(** Modelled from the spec: the type of [mcp_config] is declared in
    [data.js], which is not among the sources.  The fields are those of the
    protocol config of section 3 ([command], ordered [args], optional [env]
    mapping, optional [description]), under the names [index.ts] reads. *)
Record t : Type := mk {
  command : string;
  args : list string;
  env : option (list (string * string));
  description : option string
}.
End McpConfig.

(** Modelled from the spec: the [Agent] type is declared in [data.js],
    which is not among the sources.  The fields are those of section 3 of
    the specification, under the names [index.ts] reads them by; the
    enumerated fields are the strings the handlers compare them with. *)
Record Agent : Type := mkAgent {
  slug : string;
  name : string;
  tagline : string;
  description : string;
  url : string;
  primary_category : string;
  secondary_categories : list string;
  pricing_model : string;
  pricing_details : string;
  autonomy_level : string;
  open_source : bool;
  repo_url : option string;
  mcp_support : bool;
  mcp_config : option McpConfig.t;
  tags : list string;
  capabilities : list string;
  best_for : list string;
  limitations : list string;
  not_ideal_for : list string;
  reliability_notes : string;
  access_methods : list string;
  integrates_with : list string
}.

(** An object used as an ordered table: its entries in the order
    [Object.entries] lists them; [table[key]] is the value of the entry
    with that key, [undefined] when there is none (the keys are category
    keys, none of them the name of a member of [Object.prototype]). *)
Definition lookupEntry (table : list (string * string)) (key : string)
  : option string :=
  option_map snd (find (fun e => String.eqb (fst e) key) table).

(** ** Scoring *)

Section Scoring.

Variable CATEGORY_LABELS : list (string * string).

(** [if (c) score += w] *)
Definition bump (c : bool) (w : Z) (score : Z) : Z :=
  if c then score + w else score.

(** [for (const word of words) if (text.includes(word)) score += w] *)
Definition bumpWords (text : string) (words : list string) (w : Z)
  (score : Z) : Z :=
  fold_left (fun score word => bump (Js.includes text word) w score)
    words score.

Definition scoreAgent (agent : Agent) (query : string) : Z :=
  let q := Js.toLowerCase query in
  let words :=
    filter (fun w => (2 <? String.length w)%nat) (Js.splitWhiteSpace q) in
  let score := 0 in
  (* name and tagline *)
  let score := bump (Js.includes (Js.toLowerCase (name agent)) q) 50 score in
  let score := bump (Js.includes (Js.toLowerCase (tagline agent)) q) 30 score in
  (* tags *)
  let score :=
    fold_left (fun score tag =>
      let score := bump (Js.includes q tag || Js.includes tag q) 20 score in
      bumpWords tag words 10 score) (tags agent) score in
  (* capabilities *)
  let score :=
    fold_left (fun score cap =>
      let capLower := Js.toLowerCase cap in
      let score := bump (Js.includes capLower q) 15 score in
      bumpWords capLower words 5 score) (capabilities agent) score in
  (* best-for statements *)
  let score :=
    fold_left (fun score bf =>
      let bfLower := Js.toLowerCase bf in
      let score := bump (Js.includes bfLower q) 25 score in
      bumpWords bfLower words 8 score) (best_for agent) score in
  (* negative signals *)
  let score :=
    fold_left (fun score nif =>
      let nifLower := Js.toLowerCase nif in
      bumpWords nifLower words (-5) score) (not_ideal_for agent) score in
  (* category label *)
  let categoryLabel :=
    Js.orElse
      (option_map Js.toLowerCase
         (lookupEntry CATEGORY_LABELS (primary_category agent)))
      EmptyString in
  let score := bumpWords categoryLabel words 10 score in
  score.

End Scoring.

(** ** Text building blocks *)

Definition NL : string := String "010" EmptyString.
Definition DQUOTE : string := String "034" EmptyString.

(** The em dash of the templates, U+2014 (written here as its three
    UTF-8 bytes since it lies outside the range of one [ascii]; no function
    of the model inspects it). *)
Definition EM_DASH : string :=
  String "226" (String "128" (String "148" EmptyString)).

(** [lines.join("\n")] *)
Definition unlines (lines : list string) : string := Js.join NL lines.

(** [n !== 1 ? 's' : ''] *)
Definition plural (n : nat) : string :=
  if Nat.eqb n 1 then EmptyString else "s".

(** ** JSON rendering of a connection configuration *)

Module Json.

(** The values that occur in a connection configuration: strings, arrays of
    strings, and objects with string values. *)
Inductive value : Type :=
| Str (s : string)
| Arr (items : list string)
| Obj (fields : list (string * string)).

Definition hexDigit (n : N) : ascii :=
  if (n <? 10)%N then ascii_of_N (48 + n) else ascii_of_N (87 + n).

(** QuoteJSONString on one code unit. *)
Definition quoteChar (c : ascii) : string :=
  let n := N_of_ascii c in
  let bs := String "092" in
  if (n =? 34)%N then bs DQUOTE
  else if (n =? 92)%N then bs (bs EmptyString)
  else if (n =? 8)%N then bs "b"
  else if (n =? 12)%N then bs "f"
  else if (n =? 10)%N then bs "n"
  else if (n =? 13)%N then bs "r"
  else if (n =? 9)%N then bs "t"
  else if (n <? 32)%N then
    bs (String "u" (String "0" (String "0"
      (String (hexDigit (n / 16)) (String (hexDigit (n mod 16)) EmptyString)))))
  else String c EmptyString.

Fixpoint quoteBody (s : string) : string :=
  match s with
  | EmptyString => EmptyString
  | String c s' => quoteChar c +:+ quoteBody s'
  end.

Definition quote (s : string) : string :=
  DQUOTE +:+ quoteBody s +:+ DQUOTE.

Definition GAP : string := "  ".

(** A non-empty array or object: its parts, one per line, one [GAP]
    deeper than the [indent] of the closing bracket. *)
Definition block (opening closing indent : string) (parts : list string)
  : string :=
  match parts with
  | [] => opening +:+ closing
  | _ :: _ =>
      let inner := indent +:+ GAP in
      opening +:+ NL +:+ inner +:+
      Js.join ("," +:+ NL +:+ inner) parts +:+
      NL +:+ indent +:+ closing
  end.

Definition stringifyValue (indent : string) (v : value) : string :=
  match v with
  | Str s => quote s
  | Arr items => block "[" "]" indent (map quote items)
  | Obj fields =>
      block "{" "}" indent
        (map (fun kv => quote (fst kv) +:+ ": " +:+ quote (snd kv)) fields)
  end.

(** [JSON.stringify(object, null, 2)] *)
Definition stringify (fields : list (string * value)) : string :=
  block "{" "}" EmptyString
    (map (fun kv => quote (fst kv) +:+ ": " +:+ stringifyValue GAP (snd kv))
       fields).

End Json.

(** The object literal
    [{ command, args, ...(env && { env }) }] handed to [JSON.stringify]
    by both views. *)
Definition connectionObject (cfg : McpConfig.t) : list (string * Json.value) :=
  [("command", Json.Str (McpConfig.command cfg));
   ("args", Json.Arr (McpConfig.args cfg))] ++
  match McpConfig.env cfg with
  | Some e => [("env", Json.Obj e)]
  | None => []
  end.

Definition connectionBlock (cfg : McpConfig.t) : string :=
  Json.stringify (connectionObject cfg).

(** [agent.mcp_support && agent.mcp_config] as a condition, with the
    configuration at hand when it holds. *)
Definition mcpConfigOf (agent : Agent) : option McpConfig.t :=
  if mcp_support agent then mcp_config agent else None.

(** ** Stable sorting

    [Array.prototype.sort(comparefn)] is a stable sort: the outcome is
    the one of inserting the elements, last first, each before the first
    element it does not sort after. *)

Section Sort.

Context {A : Type}.
Variable comparefn : A -> A -> Z.

Fixpoint insertSorted (x : A) (l : list A) : list A :=
  match l with
  | [] => [x]
  | y :: l' =>
      if 0 <? comparefn x y then y :: insertSorted x l'
      else x :: y :: l'
  end.

Fixpoint sortStable (l : list A) : list A :=
  match l with
  | [] => []
  | x :: l' => insertSorted x (sortStable l')
  end.

End Sort.

(** ** The search filter and the ranking *)

(** The two filter steps of the search handler, over the catalog
    [catalog]; a step is skipped when its parameter is absent or falsy
    ([if (params.category)], [if (params.pricing)]). *)
Definition filterAgents (catalog : list Agent) (category pricing : option string)
  : list Agent :=
  let filtered := catalog in
  let filtered :=
    match category with
    | Some cat =>
        if Js.truthy cat
        then filter (fun a =>
               String.eqb (primary_category a) cat ||
               existsb (String.eqb cat) (secondary_categories a)) filtered
        else filtered
    | None => filtered
    end in
  let filtered :=
    match pricing with
    | Some p =>
        if Js.truthy p
        then filter (fun a => String.eqb (pricing_model a) p) filtered
        else filtered
    | None => filtered
    end in
  filtered.

(** An entry [{ agent, score }] of the scored list. *)
Record Scored : Type := mkScored { agent : Agent; score : Z }.

(** The comparison function of the search handler,
    [(a, b) => b.score - a.score]. *)
Definition byScore (a b : Scored) : Z := score b - score a.

Section Ranking.

Variable CATEGORY_LABELS : list (string * string).

Definition scoreAll (filtered : list Agent) (query : string) : list Scored :=
  map (fun a => mkScored a (scoreAgent CATEGORY_LABELS a query)) filtered.

(** Score, keep the positive scores, sort by descending score, cut at
    [limit]. *)
Definition rank (filtered : list Agent) (query : string) (limit : nat)
  : list Scored :=
  let scored :=
    filter (fun item => 0 <? score item) (scoreAll filtered query) in
  let scored := sortStable byScore scored in
  firstn limit scored.

End Ranking.

(** ** Presentation of one agent *)

Section Presentation.

Variable CATEGORY_LABELS : list (string * string).

Definition bullet (s : string) : string := "- " +:+ s.

Definition detailHeader (agent : Agent) : list string :=
  [ "# " +:+ name agent;
    "*" +:+ tagline agent +:+ "*";
    EmptyString;
    "**URL:** " +:+ url agent;
    "**Category:** " +:+
      Js.orElse (lookupEntry CATEGORY_LABELS (primary_category agent))
        (primary_category agent);
    "**Pricing:** " +:+ pricing_model agent +:+ " " +:+ EM_DASH +:+ " " +:+
      pricing_details agent;
    "**Autonomy Level:** " +:+ autonomy_level agent;
    "**Open Source:** " +:+ (if open_source agent then "Yes" else "No") +:+
      (if Js.present (repo_url agent)
       then " (" +:+ Js.orElse (repo_url agent) EmptyString +:+ ")"
       else EmptyString);
    "**MCP Support:** " +:+ (if mcp_support agent then "Yes" else "No") ].

(** The configuration section of the full profile. *)
Definition detailConfig (agent : Agent) : list string :=
  match mcpConfigOf agent with
  | Some cfg =>
      [ EmptyString;
        "## MCP Server Configuration";
        "```json";
        connectionBlock cfg;
        "```" ] ++
      (if Js.present (McpConfig.description cfg)
       then ["*" +:+ Js.orElse (McpConfig.description cfg) EmptyString +:+ "*"]
       else [])
  | None => []
  end.

Definition detailBody (agent : Agent) : list string :=
  [ EmptyString; "## Description"; description agent;
    EmptyString; "## Best For" ] ++ map bullet (best_for agent) ++
  [ EmptyString; "## Capabilities" ] ++ map bullet (capabilities agent) ++
  [ EmptyString; "## Limitations" ] ++ map bullet (limitations agent) ++
  [ EmptyString; "## Not Ideal For" ] ++ map bullet (not_ideal_for agent) ++
  [ EmptyString; "## Reliability"; reliability_notes agent;
    EmptyString; "## Access Methods"; Js.join ", " (access_methods agent);
    EmptyString; "## Integrations";
    if (0 <? length (integrates_with agent))%nat
    then Js.join ", " (integrates_with agent) else "None listed" ].

Definition detailLines (agent : Agent) : list string :=
  detailHeader agent ++ detailConfig agent ++ detailBody agent.

Definition formatAgentDetail (agent : Agent) : string :=
  unlines (detailLines agent).

End Presentation.

(** ** The tool handlers

    Each handler returns [{ content: [{ type: "text", text }] }]; the
    model returns the [text]. *)

Section Server.

Variable AGENTS : list Agent.
Variable CATEGORY_LABELS : list (string * string).

(** [AGENTS.find(a => a.slug === slug)] *)
Definition findAgent (s : string) : option Agent :=
  find (fun a => String.eqb (slug a) s) AGENTS.

(** *** yagoo_search *)

Definition resultEntry (i : nat) (item : Scored) : list string :=
  let agent := agent item in
  [ "## " +:+ Js.ofNat (i + 1) +:+ ". " +:+ name agent;
    "*" +:+ tagline agent +:+ "*";
    EmptyString;
    "**Why it fits:** " +:+ Js.join "; " (firstn 2 (best_for agent));
    "**Watch out for:** " +:+
      Js.orElse (nth_error (limitations agent) 0) "No major limitations noted";
    "**Pricing:** " +:+ pricing_model agent +:+ " " +:+ EM_DASH +:+ " " +:+
      pricing_details agent;
    "**URL:** " +:+ url agent ] ++
  match mcpConfigOf agent with
  | Some cfg =>
      [ "**MCP:** `" +:+ McpConfig.command cfg +:+ " " +:+
        Js.join " " (McpConfig.args cfg) +:+ "`" ]
  | None => []
  end ++
  [ EmptyString ].

(** [for (let i = 0; i < results.length; i++) ...], from index [i]. *)
Fixpoint resultEntries (i : nat) (results : list Scored) : list string :=
  match results with
  | [] => []
  | item :: rest => resultEntry i item ++ resultEntries (S i) rest
  end.

Definition noResultsText (query : string) : string :=
  "No agents found matching " +:+ DQUOTE +:+ query +:+ DQUOTE +:+
  ". Try different keywords or browse by category using yagoo_list_categories.".

Definition searchText (query : string) (results : list Scored) : string :=
  unlines
    ([ "# YAGOO Search Results: " +:+ DQUOTE +:+ query +:+ DQUOTE;
       "Found " +:+ Js.ofNat (length results) +:+ " matching agent" +:+
         plural (length results);
       EmptyString ] ++
     resultEntries 0 results ++
     [ "---";
       "*Use yagoo_get_agent with slug for full details. Use yagoo_compare to compare options.*" ]).

Definition searchResults (query : string) (category pricing : option string)
  (limit : nat) : list Scored :=
  let filtered := filterAgents AGENTS category pricing in
  rank CATEGORY_LABELS filtered query limit.

Definition yagoo_search (query : string) (category pricing : option string)
  (limit : nat) : string :=
  let results := searchResults query category pricing limit in
  if Nat.eqb (length results) 0 then noResultsText query
  else searchText query results.

(** *** yagoo_get_agent *)

Definition suggestionsFor (s : string) : list string :=
  map slug
    (firstn 3
       (filter (fun a =>
          Js.includes (slug a) s ||
          Js.includes (Js.toLowerCase (name a)) (Js.toLowerCase s)) AGENTS)).

Definition notFoundText (s : string) : string :=
  let suggestions := suggestionsFor s in
  "Agent " +:+ DQUOTE +:+ s +:+ DQUOTE +:+ " not found." +:+
  (if (0 <? length suggestions)%nat
   then " Did you mean: " +:+ Js.join ", " suggestions +:+ "?"
   else " Use yagoo_search to find agents.").

Definition yagoo_get_agent (s : string) : string :=
  match findAgent s with
  | None => notFoundText s
  | Some agent => formatAgentDetail CATEGORY_LABELS agent
  end.

(** *** yagoo_list_categories *)

(** [categoryCounts[k] = (categoryCounts[k] || 0) + 1].  The object is a
    finite map from keys to counts (the keys are category keys, none of
    them the name of a member of [Object.prototype]). *)
Definition countStep (counts : gmap string nat) (a : Agent)
  : gmap string nat :=
  <[ primary_category a :=
       (default 0 (counts !! primary_category a) + 1)%nat ]> counts.

(** The counting loop over the catalog. *)
Definition categoryCounts : gmap string nat :=
  fold_left countStep AGENTS ∅.

(** [categoryCounts[slug] || 0] *)
Definition countOf (key : string) : nat := default 0%nat (categoryCounts !! key).

Definition categoryLine (entry : string * string) : string :=
  let '(key, label) := entry in
  let count := countOf key in
  "- **" +:+ label +:+ "** (" +:+ key +:+ "): " +:+ Js.ofNat count +:+
  " agent" +:+ plural count.

Definition yagoo_list_categories : string :=
  unlines
    ([ "# YAGOO Agent Categories";
       EmptyString;
       "Total: " +:+ Js.ofNat (length AGENTS) +:+ " agents across " +:+
         Js.ofNat (size categoryCounts) +:+ " categories";
       EmptyString ] ++
     map categoryLine CATEGORY_LABELS ++
     [ EmptyString;
       "*Use yagoo_search with category filter to explore specific categories.*" ]).

(** *** yagoo_compare *)

(** The resolution loop: each slug is pushed on [agents] or on
    [notFound]. *)
Definition resolveStep (st : list Agent * list string) (s : string)
  : list Agent * list string :=
  let '(agents, notFound) := st in
  match findAgent s with
  | Some a => (agents ++ [a], notFound)
  | None => (agents, notFound ++ [s])
  end.

Definition resolveSlugs (slugs : list string) : list Agent * list string :=
  fold_left resolveStep slugs ([], []).

Definition compareNotFoundText (notFound : list string) : string :=
  "Agents not found: " +:+ Js.join ", " notFound +:+
  ". Use yagoo_search to find valid agent slugs.".

Definition tooFewText : string := "Need at least 2 valid agents to compare.".

Definition isBudget (a : Agent) : bool :=
  String.eqb (pricing_model a) "free" ||
  String.eqb (pricing_model a) "open_source" ||
  String.eqb (pricing_model a) "freemium".

Definition isAutonomous (a : Agent) : bool :=
  String.eqb (autonomy_level a) "fully_autonomous".

(** [if (pick) lines.push(`- **${title}**: ${pick.name}`)] *)
Definition pickLine (title : string) (pick : option Agent) : list string :=
  match pick with
  | Some a => [ "- **" +:+ title +:+ "**: " +:+ name a ]
  | None => []
  end.

Definition recommendationLines (agents : list Agent) : list string :=
  let freeAgent := find isBudget agents in
  let autonomousAgent := find isAutonomous agents in
  let mcpAgent := find mcp_support agents in
  pickLine "Budget-friendly" freeAgent ++
  pickLine "For autonomous operation" autonomousAgent ++
  pickLine "MCP integration" mcpAgent.

Definition comparisonLines (agents : list Agent) : list string :=
  [ "# Agent Comparison: " +:+ Js.join " vs " (map name agents);
    EmptyString ] ++
  [ "## Pricing" ] ++
  map (fun a => "- **" +:+ name a +:+ "**: " +:+ pricing_model a +:+
                " " +:+ EM_DASH +:+ " " +:+ pricing_details a) agents ++
  [ EmptyString ] ++
  [ "## Autonomy Level" ] ++
  map (fun a => "- **" +:+ name a +:+ "**: " +:+ autonomy_level a) agents ++
  [ EmptyString ] ++
  [ "## Best For" ] ++
  flat_map (fun a =>
    ("**" +:+ name a +:+ ":**") ::
    map (fun bf => "  - " +:+ bf) (firstn 3 (best_for a))) agents ++
  [ EmptyString ] ++
  [ "## Watch Out For" ] ++
  flat_map (fun a =>
    ("**" +:+ name a +:+ ":**") ::
    map (fun lim => "  - " +:+ lim) (firstn 2 (limitations a))) agents ++
  [ EmptyString ] ++
  [ "## Quick Recommendations" ] ++
  recommendationLines agents.

Definition comparisonText (agents : list Agent) : string :=
  unlines (comparisonLines agents).

(** The branch a compare call ends in. *)
Inductive CompareBranch : Type :=
| UnresolvedSlugs (notFound : list string)
| TooFewAgents
| Comparison (agents : list Agent).

Definition compareBranch (slugs : list string) : CompareBranch :=
  let '(agents, notFound) := resolveSlugs slugs in
  if (0 <? length notFound)%nat then UnresolvedSlugs notFound
  else if (length agents <? 2)%nat then TooFewAgents
  else Comparison agents.

Definition branchText (b : CompareBranch) : string :=
  match b with
  | UnresolvedSlugs notFound => compareNotFoundText notFound
  | TooFewAgents => tooFewText
  | Comparison agents => comparisonText agents
  end.

Definition yagoo_compare (slugs : list string) : string :=
  branchText (compareBranch slugs).

(** *** yagoo_list_mcp *)

Definition mcpAgents : list Agent :=
  filter (fun a => match mcpConfigOf a with Some _ => true | None => false end)
    AGENTS.

(** One entry of the listing; the agents of [mcpAgents] all have a
    configuration (the [!] of the source). *)
Definition mcpEntry (agent : Agent) : list string :=
  match mcp_config agent with
  | Some cfg =>
      [ "## " +:+ name agent;
        "*" +:+ tagline agent +:+ "*";
        EmptyString;
        "**Connection:**";
        "```json";
        connectionBlock cfg;
        "```" ] ++
      (if Js.present (McpConfig.description cfg)
       then [ Js.orElse (McpConfig.description cfg) EmptyString ]
       else []) ++
      [ EmptyString ]
  | None => []
  end.

Definition listMcpLines : list string :=
  [ "# MCP-Enabled Agents";
    EmptyString;
    Js.ofNat (length mcpAgents) +:+ " agents with MCP server support:";
    EmptyString ] ++
  flat_map mcpEntry mcpAgents ++
  [ "---";
    "*Add to Claude Code: `claude mcp add <name> -- <command> <args>`*" ].

Definition yagoo_list_mcp : string := unlines listMcpLines.

End Server.

(** ** A small catalog for the concrete instances *)

Module Sample.

Definition labels : list (string * string) :=
  [ ("coding_development", "Coding & Development");
    ("creative_design", "Creative & Design");
    ("data_research", "Data & Research") ].

Definition firecrawlConfig : McpConfig.t :=
  McpConfig.mk "npx" ["-y"; "firecrawl-mcp"]
    (Some [("FIRECRAWL_API_KEY", "your-key")])
    (Some "Scrape and crawl pages").

Definition firecrawl : Agent :=
  mkAgent "firecrawl" "Firecrawl" "Turn websites into clean data"
    "Crawls sites and returns structured text." "https://firecrawl.dev"
    "data_research" ["coding_development"] "freemium" "Free tier, then paid"
    "semi_autonomous" true (Some "https://github.com/firecrawl/firecrawl")
    true (Some firecrawlConfig)
    ["web-scraping"; "crawler"] ["Crawl whole sites"; "Extract markdown"]
    ["Scraping websites at scale"; "Feeding pages to models"]
    ["Rate limits on the free tier"] ["Image generation"]
    "Stable" ["api"; "mcp"] ["zapier"].

Definition cursorConfig : McpConfig.t :=
  McpConfig.mk "cursor-mcp" [] None None.

Definition cursor : Agent :=
  mkAgent "cursor" "Cursor" "The editor that writes code with you"
    "An editor with a built-in assistant." "https://cursor.com"
    "coding_development" [] "paid" "Monthly subscription"
    "assisted" false None
    true (Some cursorConfig)
    ["coding"; "editor"] ["Edit code"; "Explain code"]
    ["Pair programming"] [] ["Scraping websites"]
    "Stable" ["desktop"] [].

Definition midjourney : Agent :=
  mkAgent "midjourney" "Midjourney" "Images from text"
    "Generates images from prompts." "https://midjourney.com"
    "creative_design" [] "paid" "Subscription"
    "fully_autonomous" false None
    false None
    ["image-generation"] ["Generate images"]
    ["Concept art"] ["No public API"] ["Code review"]
    "Stable" ["discord"] [].

(** An agent filed under a category that has no label. *)
Definition stray : Agent :=
  mkAgent "stray" "Stray" "Unlabelled" "No label for its category."
    "https://example.org" "misc" [] "free" "Free"
    "assisted" false None false None
    [] [] [] [] [] "Unknown" [] [].

Definition agents : list Agent := [firecrawl; cursor; midjourney].

End Sample.

(** ** The specification's reading of the operations *)

Module Spec.

(** A weight that applies when its condition holds. *)
Definition weight (c : bool) (w : Z) : Z := if c then w else 0.

Definition sumZ (l : list Z) : Z := fold_right Z.add 0 l.

(** How many of the [words] occur in [text], with repetitions. *)
Definition hits (text : string) (words : list string) : Z :=
  Z.of_nat (length (filter (Js.includes text) words)).

(** The tokens of the lower-cased query longer than two code units. *)
Definition queryWords (query : string) : list string :=
  filter (fun w => (2 <? String.length w)%nat)
    (Js.splitWhiteSpace (Js.toLowerCase query)).

(** The lower-cased display label of the agent's primary category (empty
    when the category has no label). *)
Definition categoryLabel (labels : list (string * string)) (a : Agent)
  : string :=
  match lookupEntry labels (primary_category a) with
  | Some label => Js.toLowerCase label
  | None => EmptyString
  end.

(** The table of additive weights. *)
Definition scoreByWeights (labels : list (string * string)) (a : Agent)
  (query : string) : Z :=
  let q := Js.toLowerCase query in
  let words := queryWords query in
  weight (Js.includes (Js.toLowerCase (name a)) q) 50 +
  weight (Js.includes (Js.toLowerCase (tagline a)) q) 30 +
  sumZ (map (fun tag =>
          weight (Js.includes q tag || Js.includes tag q) 20 +
          10 * hits tag words) (tags a)) +
  sumZ (map (fun cap =>
          weight (Js.includes (Js.toLowerCase cap) q) 15 +
          5 * hits (Js.toLowerCase cap) words) (capabilities a)) +
  sumZ (map (fun bf =>
          weight (Js.includes (Js.toLowerCase bf) q) 25 +
          8 * hits (Js.toLowerCase bf) words) (best_for a)) +
  sumZ (map (fun nif => -5 * hits (Js.toLowerCase nif) words)
          (not_ideal_for a)) +
  10 * hits (categoryLabel labels a) words.

(** The filter as the contract words it: a given category must be the
    primary category or one of the secondary ones, a given pricing must
    be the pricing model, and both must hold. *)
Definition keeps (category pricing : option string) (a : Agent) : bool :=
  match category with
  | Some cat =>
      String.eqb cat (primary_category a) ||
      existsb (String.eqb cat) (secondary_categories a)
  | None => true
  end &&
  match pricing with
  | Some p => String.eqb p (pricing_model a)
  | None => true
  end.

Definition filterBySpec (catalog : list Agent) (category pricing : option string)
  : list Agent :=
  filter (keeps category pricing) catalog.

(** A parameter as the handler takes it: the empty string counts as not
    given. *)
Definition given (x : option string) : option string :=
  match x with
  | Some s => if Js.truthy s then Some s else None
  | None => None
  end.

(** The number of agents whose primary category is [key]. *)
Definition primaryCount (catalog : list Agent) (key : string) : nat :=
  length (filter (fun a => String.eqb (primary_category a) key) catalog).

(** [pick] is the first element of [l] that satisfies [P], or nothing
    when no element does. *)
Definition FirstWhere {A : Type} (P : A -> Prop) (l : list A)
  (pick : option A) : Prop :=
  match pick with
  | Some a =>
      exists before after,
        l = before ++ a :: after /\ P a /\ Forall (fun x => ~ P x) before
  | None => Forall (fun x => ~ P x) l
  end.

(** [l1] is an initial segment of [l2]. *)
Definition InitialSegment {A : Type} (l1 l2 : list A) : Prop :=
  exists rest, l2 = l1 ++ rest.

(** The slugs of a compare call that name an agent, as the agents they
    name, and those that name none; both in input order. *)
Definition resolved (catalog : list Agent) (slugs : list string)
  : list Agent :=
  flat_map (fun s => match findAgent catalog s with
                     | Some a => [a]
                     | None => []
                     end) slugs.

Definition unresolved (catalog : list Agent) (slugs : list string)
  : list string :=
  filter (fun s => match findAgent catalog s with
                   | Some _ => false
                   | None => true
                   end) slugs.

(** [t] occurs in [s]. *)
Definition Contains (s t : string) : Prop :=
  exists before after, s = before +:+ t +:+ after.

(** No code unit of [w] is white space. *)
Definition NoWhiteSpace (w : string) : Prop :=
  Forall (fun c => Js.isWhiteSpace c = false) (String.list_ascii_of_string w).

(** [sep] is a non-empty run of white space. *)
Definition WhiteSpaceRun (sep : string) : Prop :=
  sep <> EmptyString /\
  Forall (fun c => Js.isWhiteSpace c = true)
    (String.list_ascii_of_string sep).

(** [s] does not begin with white space. *)
Definition StartsWithToken (s : string) : Prop :=
  match s with
  | EmptyString => True
  | String c _ => Js.isWhiteSpace c = false
  end.

(** The first code unit of a text. *)
Definition headChar (s : string) : option ascii :=
  match s with
  | EmptyString => None
  | String c _ => Some c
  end.

End Spec.

(** ** Looking for an entry in a rendered block

    An entry of a printed object starts with its quoted key, a colon and a
    space.  The last code unit of the key [env], the closing quote and the
    colon form the text [ENTRY_TAIL]; [scan] follows a text and reports
    whether [ENTRY_TAIL] was met. *)

Module Scan.

Definition ENV_ENTRY : string := Json.quote "env" +:+ ": ".

Definition ENTRY_TAIL : string :=
  String "v" (String "034" (String ":" EmptyString)).

Inductive state : Type := Idle | SeenV | SeenVQuote | Found.

Definition step (q : state) (c : ascii) : state :=
  match q with
  | Found => Found
  | _ =>
      if Ascii.eqb c "v" then SeenV
      else match q with
           | SeenV => if Ascii.eqb c "034" then SeenVQuote else Idle
           | SeenVQuote => if Ascii.eqb c ":" then Found else Idle
           | _ => Idle
           end
  end.

Fixpoint scan (q : state) (s : string) : state :=
  match s with
  | EmptyString => q
  | String c s' => scan (step q c) s'
  end.

(** Not in the middle of a match. *)
Definition calm (q : state) : Prop := q = Idle \/ q = SeenV.

(** The states behind a closing quote. *)
Definition closed (q : state) : Prop := q = Idle \/ q = SeenVQuote.

End Scan.

(** Entries with the score [v]. *)
Definition hasScore (v : Z) (item : Scored) : bool := score item =? v.

(** The order of a ranked list. *)
Definition descending (a b : Scored) : Prop := score a >= score b.

(** ** Input schemas

    The bounds of the three zod schemas of [index.ts].  A candidate input
    has its fields at the declared types already (a string, an optional
    string, an integer; a value of another type or an unknown key is
    refused by [z.string], [.int] and [.strict] and has no counterpart
    here).  Parsing returns the parameters the handler receives, or
    nothing when an issue is raised. *)

Module Schema.

Record SearchInput : Type := mkSearchInput {
  query : string;
  category : option string;
  pricing : option string;
  limit : option Z
}.

Record SearchParams : Type := mkSearchParams {
  params_query : string;
  params_category : option string;
  params_pricing : option string;
  params_limit : nat
}.

(** [SearchInputSchema]: [query] of 2 to 500 code units, [limit] an
    integer from 1 to 20, 5 when left out. *)
Definition parseSearchInput (input : SearchInput) : option SearchParams :=
  let n := String.length (query input) in
  if ((2 <=? n) && (n <=? 500))%nat then
    match limit input with
    | None =>
        Some (mkSearchParams (query input) (category input) (pricing input) 5)
    | Some l =>
        if (1 <=? l) && (l <=? 20)
        then Some (mkSearchParams (query input) (category input)
                     (pricing input) (Z.to_nat l))
        else None
    end
  else None.

(** [GetAgentInputSchema]: a slug of at least one code unit. *)
Definition parseGetAgentInput (s : string) : option string :=
  if (1 <=? String.length s)%nat then Some s else None.

(** [CompareInputSchema]: two to five slugs. *)
Definition parseCompareInput (slugs : list string) : option (list string) :=
  if ((2 <=? length slugs) && (length slugs <=? 5))%nat
  then Some slugs else None.

End Schema.

(** ** Variations of an agent *)

(** The agent [a] with other tags, capabilities, best-for and
    not-ideal-for entries. *)
Definition withSignals (a : Agent)
  (newTags newCapabilities newBestFor newNotIdealFor : list string) : Agent :=
  mkAgent (slug a) (name a) (tagline a) (description a) (url a)
    (primary_category a) (secondary_categories a) (pricing_model a)
    (pricing_details a) (autonomy_level a) (open_source a) (repo_url a)
    (mcp_support a) (mcp_config a)
    newTags newCapabilities newBestFor (limitations a) newNotIdealFor
    (reliability_notes a) (access_methods a) (integrates_with a).

(** The entries of a scored list with a score above zero. *)
Definition positives (scored : list Scored) : list Scored :=
  filter (fun item => 0 <? score item) scored.

(** * Properties *)

(** ** Strings *)

Section StringFacts.

Lemma append_cons (c : ascii) (a b : string) :
  String c a +:+ b = String c (a +:+ b).
Proof. reflexivity. Qed.

Lemma append_nil_l (a : string) : EmptyString +:+ a = a.
Proof. reflexivity. Qed.

Lemma append_assoc (a b c : string) : (a +:+ b) +:+ c = a +:+ b +:+ c.
Proof.
  induction a as [|x a IH]; [reflexivity|].
  rewrite !append_cons, IH. reflexivity.
Qed.

Lemma append_nil_r (a : string) : a +:+ EmptyString = a.
Proof.
  induction a as [|x a IH]; [reflexivity|].
  rewrite append_cons, IH. reflexivity.
Qed.

Lemma prefix_spec (t s : string) :
  String.prefix t s = true <-> exists after, s = t +:+ after.
Proof.
  revert s. induction t as [|c t IH]; intros s.
  - destruct s; split; simpl; eauto.
  - destruct s as [|c' s]; simpl.
    + split; [discriminate|]. intros [after H]. discriminate.
    + destruct (ascii_dec c c') as [<-|Hne].
      * rewrite IH. split; intros [after H]; exists after;
          rewrite append_cons in *; congruence.
      * split; [discriminate|]. intros [after H].
        rewrite append_cons in H. congruence.
Qed.

Lemma includes_cons (c : ascii) (s t : string) :
  Js.includes (String c s) t =
  if String.prefix t (String c s) then true else Js.includes s t.
Proof. reflexivity. Qed.

(** [includes] decides the substring relation. *)
Lemma includes_spec (s t : string) :
  Js.includes s t = true <-> Spec.Contains s t.
Proof.
  unfold Spec.Contains. split.
  - induction s as [|c s IH].
    + destruct t as [|c t]; [|intros H; discriminate H].
      intros _. exists EmptyString, EmptyString. reflexivity.
    + rewrite includes_cons.
      destruct (String.prefix t (String c s)) eqn:Hp.
      * intros _. apply prefix_spec in Hp. destruct Hp as [after H].
        exists EmptyString, after. exact H.
      * intros H. destruct (IH H) as [before [after ->]].
        exists (String c before), after. reflexivity.
  - intros [before [after ->]].
    induction before as [|c before IH].
    + assert (Hp : String.prefix t (t +:+ after) = true)
        by (apply prefix_spec; eauto).
      rewrite append_nil_l.
      destruct (t +:+ after) as [|c u].
      * destruct t; [reflexivity|discriminate Hp].
      * rewrite includes_cons, Hp. reflexivity.
    + rewrite append_cons, includes_cons, IH.
      destruct (String.prefix t (String c (before +:+ t +:+ after)));
        reflexivity.
Qed.

Lemma list_ascii_append (a b : string) :
  String.list_ascii_of_string (a +:+ b) =
  String.list_ascii_of_string a ++ String.list_ascii_of_string b.
Proof.
  induction a as [|c a IH]; [reflexivity|].
  rewrite append_cons. simpl. rewrite IH. reflexivity.
Qed.

(** Every piece of a split is free of white space. *)
Lemma splitRun_tokens (inSep : bool) (cur s : string) :
  Spec.NoWhiteSpace cur ->
  Forall Spec.NoWhiteSpace (Js.splitRun inSep cur s).
Proof.
  revert inSep cur.
  induction s as [|c s IH]; intros inSep cur Hcur; simpl.
  - constructor; [exact Hcur|constructor].
  - destruct (Js.isWhiteSpace c) eqn:Hc.
    + destruct inSep.
      * apply IH, Hcur.
      * constructor; [exact Hcur|]. apply IH. constructor.
    + apply IH. unfold Spec.NoWhiteSpace.
      rewrite list_ascii_append. apply Forall_app. split; [exact Hcur|].
      simpl. constructor; [exact Hc|constructor].
Qed.

(** A text without white space is its own single piece. *)
Lemma splitRun_token (inSep : bool) (cur w : string) :
  Spec.NoWhiteSpace w ->
  Js.splitRun inSep cur w = [cur +:+ w].
Proof.
  revert inSep cur.
  induction w as [|c w IH]; intros inSep cur Hw; simpl.
  - rewrite append_nil_r. reflexivity.
  - inversion Hw as [|c' l Hc Hrest]; subst.
    rewrite Hc, IH by exact Hrest.
    rewrite append_assoc. reflexivity.
Qed.

(** Inside a separator run, further white space is skipped, and the scan
    resumes as from the start of a piece. *)
Lemma splitRun_skip (sep rest : string) :
  Forall (fun c => Js.isWhiteSpace c = true) (String.list_ascii_of_string sep) ->
  Spec.StartsWithToken rest ->
  Js.splitRun true EmptyString (sep +:+ rest) =
  Js.splitRun false EmptyString rest.
Proof.
  induction sep as [|c sep IH]; intros Hsep Hrest.
  - rewrite append_nil_l. destruct rest as [|c rest]; [reflexivity|].
    simpl in *. rewrite Hrest. reflexivity.
  - inversion Hsep as [|c' l Hc Hl]; subst.
    rewrite append_cons. simpl. rewrite Hc. apply IH; assumption.
Qed.

(** A piece, a separator run, and the rest: the piece is split off and
    the rest is split on its own. *)
Lemma splitRun_piece (cur w sep rest : string) :
  Spec.NoWhiteSpace w ->
  Spec.WhiteSpaceRun sep ->
  Spec.StartsWithToken rest ->
  Js.splitRun false cur (w +:+ sep +:+ rest) =
  (cur +:+ w) :: Js.splitWhiteSpace rest.
Proof.
  revert cur.
  induction w as [|c w IH]; intros cur Hw [Hne Hsep] Hrest.
  - rewrite append_nil_l, append_nil_r.
    destruct sep as [|c sep]; [congruence|].
    inversion Hsep as [|c' l Hc Hl]; subst.
    rewrite append_cons. simpl. rewrite Hc.
    rewrite splitRun_skip by assumption. reflexivity.
  - inversion Hw as [|c' l Hc Hl]; subst.
    rewrite append_cons. simpl. rewrite Hc.
    rewrite IH by (try split; assumption).
    rewrite append_assoc. reflexivity.
Qed.

Lemma queryWords_tokens (query : string) :
  Forall (fun w => (2 < String.length w)%nat /\ Spec.NoWhiteSpace w /\
                   In w (Js.splitWhiteSpace (Js.toLowerCase query)))
    (Spec.queryWords query).
Proof.
  apply Forall_forall. intros w Hw.
  unfold Spec.queryWords in Hw. apply filter_In in Hw.
  destruct Hw as [Hin Hlen]. apply Nat.ltb_lt in Hlen.
  repeat split; [exact Hlen| |exact Hin].
  pose proof (splitRun_tokens false EmptyString (Js.toLowerCase query))
    as Hall.
  rewrite Forall_forall in Hall. apply Hall; [constructor|exact Hin].
Qed.

Lemma includes_self (s : string) : Js.includes s s = true.
Proof.
  apply includes_spec. exists EmptyString, EmptyString.
  rewrite append_nil_l, append_nil_r. reflexivity.
Qed.

End StringFacts.

(** ** Scoring *)

Section ScoringFacts.

Lemma bumpWords_hits text words w score0 :
  bumpWords text words w score0 = score0 + w * Spec.hits text words.
Proof.
  unfold bumpWords, Spec.hits.
  revert score0.
  induction words as [|word words IH]; intros score0; simpl.
  - lia.
  - rewrite IH. unfold bump.
    destruct (Js.includes text word); simpl length; lia.
Qed.

Lemma bump_weight c w score0 : bump c w score0 = score0 + Spec.weight c w.
Proof. unfold bump, Spec.weight. destruct c; lia. Qed.

(** A loop that adds a per-item amount adds the sum of the amounts. *)
Lemma fold_left_add {A : Type} (f : Z -> A -> Z) (g : A -> Z) l :
  (forall s x, f s x = s + g x) ->
  forall s, fold_left f l s = s + Spec.sumZ (map g l).
Proof.
  intros Hf.
  induction l as [|x l IH]; intros s; simpl.
  - lia.
  - rewrite IH, Hf. lia.
Qed.

End ScoringFacts.

(** C1. The score is the additive sum of the weight table: name +50,
    tagline +30, per tag +20 (substring either way) and +10 per contained
    word, per capability +15 and +5 per word, per best-for entry +25 and
    +8 per word, -5 per not-ideal-for entry and word, +10 per word in the
    category label; every term contributes, and the sum can be zero or
    negative. *)
Theorem scoreAgent_additive :
  (forall labels a query,
      scoreAgent labels a query = Spec.scoreByWeights labels a query) /\
  (forall query,
      Forall (fun w => (2 < String.length w)%nat /\ Spec.NoWhiteSpace w /\
                       In w (Js.splitWhiteSpace (Js.toLowerCase query)))
        (Spec.queryWords query)) /\
  (exists labels a query, scoreAgent labels a query = 0) /\
  (exists labels a query, scoreAgent labels a query < 0).
Proof.
  split; [|split; [exact queryWords_tokens|split]].
  - intros labels a query.
    unfold scoreAgent, Spec.scoreByWeights, Spec.queryWords, Spec.categoryLabel.
    set (q := Js.toLowerCase query).
    set (words := filter _ (Js.splitWhiteSpace q)).
    rewrite bumpWords_hits.
    rewrite (fold_left_add _
      (fun nif => -5 * Spec.hits (Js.toLowerCase nif) words))
      by (intros; apply bumpWords_hits).
    rewrite (fold_left_add _
      (fun bf => Spec.weight (Js.includes (Js.toLowerCase bf) q) 25 +
                 8 * Spec.hits (Js.toLowerCase bf) words))
      by (intros; rewrite bumpWords_hits, bump_weight; lia).
    rewrite (fold_left_add _
      (fun cap => Spec.weight (Js.includes (Js.toLowerCase cap) q) 15 +
                  5 * Spec.hits (Js.toLowerCase cap) words))
      by (intros; rewrite bumpWords_hits, bump_weight; lia).
    rewrite (fold_left_add _
      (fun tag => Spec.weight (Js.includes q tag || Js.includes tag q) 20 +
                  10 * Spec.hits tag words))
      by (intros; rewrite bumpWords_hits, bump_weight; lia).
    rewrite !bump_weight.
    assert (Hlabel :
      Js.orElse (option_map Js.toLowerCase
                   (lookupEntry labels (primary_category a))) EmptyString =
      match lookupEntry labels (primary_category a) with
      | Some label => Js.toLowerCase label
      | None => EmptyString
      end).
    { destruct (lookupEntry labels (primary_category a)) as [label|]; simpl;
        [|reflexivity].
      destruct (Js.toLowerCase label); reflexivity. }
    rewrite Hlabel. lia.
  - exists Sample.labels, Sample.midjourney, "scrape websites".
    vm_compute. reflexivity.
  - exists Sample.labels, Sample.cursor, "scrape websites".
    vm_compute. reflexivity.
Qed.

(** ** Ranking *)

Section RankingFacts.

Lemma insertSorted_perm x l :
  Permutation (insertSorted byScore x l) (x :: l).
Proof.
  induction l as [|y l IH]; simpl.
  - apply Permutation_refl.
  - destruct (0 <? byScore x y).
    + eapply perm_trans; [apply perm_skip, IH | apply perm_swap].
    + apply Permutation_refl.
Qed.

Lemma sortStable_perm l : Permutation (sortStable byScore l) l.
Proof.
  induction l as [|x l IH]; simpl.
  - apply perm_nil.
  - eapply perm_trans; [apply insertSorted_perm | apply perm_skip, IH].
Qed.

Lemma insertSorted_sorted x l :
  StronglySorted descending l ->
  StronglySorted descending (insertSorted byScore x l).
Proof.
  induction 1 as [|y l Hl IH Hy]; simpl.
  - repeat constructor.
  - destruct (0 <? byScore x y) eqn:Hcmp; unfold byScore in Hcmp.
    + constructor; [exact IH|].
      apply Z.ltb_lt in Hcmp.
      eapply Permutation_Forall;
        [apply Permutation_sym, insertSorted_perm|].
      constructor; [unfold descending; lia | exact Hy].
    + apply Z.ltb_ge in Hcmp.
      constructor; [constructor; assumption|].
      constructor; [unfold descending; lia|].
      eapply Forall_impl; [|exact Hy].
      unfold descending. intros z Hz. lia.
Qed.

Lemma sortStable_sorted l : StronglySorted descending (sortStable byScore l).
Proof.
  induction l as [|x l IH]; simpl.
  - constructor.
  - apply insertSorted_sorted, IH.
Qed.

(** Insertion puts [x] ahead of the entries of its own score. *)
Lemma insertSorted_hasScore v x l :
  filter (hasScore v) (insertSorted byScore x l) =
  filter (hasScore v) (x :: l).
Proof.
  induction l as [|y l IH]; [reflexivity|].
  simpl insertSorted.
  destruct (0 <? byScore x y) eqn:Hcmp; [|reflexivity].
  apply Z.ltb_lt in Hcmp. unfold byScore in Hcmp.
  simpl filter in *. rewrite IH.
  unfold hasScore.
  destruct (score x =? v) eqn:Hx; [|reflexivity].
  apply Z.eqb_eq in Hx.
  destruct (score y =? v) eqn:Hy; [|reflexivity].
  apply Z.eqb_eq in Hy. lia.
Qed.

(** Stability: among the entries of one score, sorting changes nothing. *)
Lemma sortStable_hasScore v l :
  filter (hasScore v) (sortStable byScore l) = filter (hasScore v) l.
Proof.
  induction l as [|x l IH]; [reflexivity|].
  simpl sortStable. rewrite insertSorted_hasScore.
  simpl. rewrite IH. reflexivity.
Qed.

Lemma firstn_incl {A : Type} n (l : list A) x :
  In x (firstn n l) -> In x l.
Proof.
  intros Hx. rewrite <- (firstn_skipn n l).
  apply in_or_app. left. exact Hx.
Qed.

Lemma firstn_sorted {A : Type} (R : A -> A -> Prop) n l :
  StronglySorted R l -> StronglySorted R (firstn n l).
Proof.
  intros Hs. revert n.
  induction Hs as [|x l Hl IH Hx]; intros [|n]; simpl; try constructor.
  - apply IH.
  - rewrite Forall_forall in *. intros y Hy.
    apply Hx. eapply firstn_incl; eauto.
Qed.

Lemma filter_firstn_initial {A : Type} (p : A -> bool) n l :
  Spec.InitialSegment (filter p (firstn n l)) (filter p l).
Proof.
  exists (filter p (skipn n l)).
  rewrite <- filter_app, firstn_skipn. reflexivity.
Qed.

Lemma filter_none {A : Type} (p : A -> bool) l :
  (forall x, In x l -> p x = false) -> filter p l = [].
Proof.
  induction l as [|x l IH]; intros Hp; [reflexivity|].
  simpl. rewrite (Hp x) by (left; reflexivity).
  apply IH. intros y Hy. apply Hp. right. exact Hy.
Qed.

Lemma filter_filter_hasScore v (p : Scored -> bool) l :
  (forall item, hasScore v item = true -> p item = true) ->
  filter (hasScore v) (filter p l) = filter (hasScore v) l.
Proof.
  intros Hp.
  induction l as [|x l IH]; [reflexivity|].
  simpl. destruct (p x) eqn:Hpx; simpl; rewrite IH.
  - reflexivity.
  - destruct (hasScore v x) eqn:Hv; [|reflexivity].
    apply Hp in Hv. congruence.
Qed.

End RankingFacts.

(** C2. The ranked result of a search holds only entries with a score
    above zero, is sorted by non-increasing score with the entries of one
    score in the order of the filtered subset, and is no longer than the
    limit or the subset; an empty result is answered with the no-results
    text. *)
Theorem rank_contract (labels : list (string * string)) :
  (forall subset query limit,
      let results := rank labels subset query limit in
      Forall (fun item =>
                0 < score item /\
                In (agent item) subset /\
                score item = scoreAgent labels (agent item) query) results /\
      StronglySorted descending results /\
      (forall v,
          Spec.InitialSegment
            (filter (hasScore v) results)
            (filter (hasScore v) (scoreAll labels subset query))) /\
      (length results <= limit)%nat /\
      (length results <= length subset)%nat /\
      (exists sorted,
          Permutation sorted
            (filter (fun item => 0 <? score item)
               (scoreAll labels subset query)) /\
          results = firstn limit sorted)) /\
  (forall catalog query category pricing limit,
      searchResults catalog labels query category pricing limit =
        rank labels (filterAgents catalog category pricing) query limit /\
      (searchResults catalog labels query category pricing limit = [] ->
       yagoo_search catalog labels query category pricing limit =
         noResultsText query)).
Proof.
  split.
  - intros subset query limit results.
    unfold rank in results.
    set (positive := filter (fun item => 0 <? score item)
                       (scoreAll labels subset query)) in results.
    set (sorted := sortStable byScore positive) in results.
    assert (Hperm : Permutation sorted positive) by apply sortStable_perm.
    repeat split.
    + apply Forall_forall. intros item Hin.
      apply firstn_incl in Hin.
      apply (Permutation_in _ Hperm) in Hin.
      apply filter_In in Hin. destruct Hin as [Hin Hpos].
      apply Z.ltb_lt in Hpos.
      unfold scoreAll in Hin. apply in_map_iff in Hin.
      destruct Hin as [a [<- Ha]]. simpl. auto.
    + apply firstn_sorted, sortStable_sorted.
    + intros v.
      destruct (filter_firstn_initial (hasScore v) limit sorted) as [rest Hrest].
      fold results in Hrest.
      unfold sorted in Hrest at 1. rewrite sortStable_hasScore in Hrest.
      destruct (0 <? v) eqn:Hv.
      * exists rest. rewrite <- Hrest. unfold positive.
        symmetry. apply filter_filter_hasScore.
        intros item Hitem. unfold hasScore in Hitem.
        apply Z.eqb_eq in Hitem. rewrite Hitem. exact Hv.
      * apply Z.ltb_ge in Hv.
        exists (filter (hasScore v) (scoreAll labels subset query)).
        rewrite (filter_none (hasScore v) results); [reflexivity|].
        intros item Hin.
        apply firstn_incl in Hin.
        apply (Permutation_in _ Hperm) in Hin.
        apply filter_In in Hin. destruct Hin as [_ Hpos].
        apply Z.ltb_lt in Hpos. unfold hasScore.
        apply Z.eqb_neq. lia.
    + apply firstn_le_length.
    + unfold results. rewrite length_firstn.
      rewrite (Permutation_length Hperm).
      unfold positive.
      pose proof (filter_length_le (fun item => 0 <? score item)
                    (scoreAll labels subset query)) as Hle.
      unfold scoreAll in Hle at 2. rewrite length_map in Hle. lia.
    + exists sorted. split; [exact Hperm|reflexivity].
  - intros catalog query category pricing limit. split; [reflexivity|].
    intros Hempty. unfold yagoo_search. rewrite Hempty. reflexivity.
Qed.

Lemma rank_contract_witness :
  yagoo_search Sample.agents Sample.labels "zzz" None None 5 =
  noResultsText "zzz".
Proof.
  apply (proj2 (rank_contract Sample.labels) Sample.agents "zzz" None None 5%nat).
  vm_compute. reflexivity.
Defined.

(** ** Slug resolution and comparison *)

Section CompareFacts.

Variable AGENTS : list Agent.

Lemma find_none_iff {A : Type} (f : A -> bool) l :
  find f l = None <-> forall x, In x l -> f x = false.
Proof.
  split; [apply find_none|].
  induction l as [|x l IH]; intros Hf; [reflexivity|].
  simpl. rewrite (Hf x) by (left; reflexivity).
  apply IH. intros y Hy. apply Hf. right. exact Hy.
Qed.

Lemma findAgent_None s :
  findAgent AGENTS s = None <-> forall a, In a AGENTS -> slug a <> s.
Proof.
  unfold findAgent. rewrite find_none_iff.
  split; intros H a Ha; specialize (H a Ha).
  - apply String.eqb_neq. exact H.
  - apply String.eqb_neq. exact H.
Qed.

Lemma findAgent_Some s a :
  findAgent AGENTS s = Some a -> In a AGENTS /\ slug a = s.
Proof.
  unfold findAgent. intros H. apply find_some in H.
  destruct H as [Hin Heq]. apply String.eqb_eq in Heq. auto.
Qed.

Lemma findAgent_exists s :
  (exists a, In a AGENTS /\ slug a = s) ->
  exists a, findAgent AGENTS s = Some a.
Proof.
  intros [a [Hin Heq]].
  destruct (findAgent AGENTS s) as [b|] eqn:Hfind; [eauto|].
  rewrite findAgent_None in Hfind. destruct (Hfind a Hin Heq).
Qed.

(** The loop leaves the resolved agents and the unresolved slugs behind
    what the two arrays held. *)
Lemma resolve_loop slugs agents notFound :
  fold_left (resolveStep AGENTS) slugs (agents, notFound) =
  (agents ++ Spec.resolved AGENTS slugs,
   notFound ++ Spec.unresolved AGENTS slugs).
Proof.
  revert agents notFound.
  induction slugs as [|s slugs IH]; intros agents notFound; simpl.
  - rewrite !app_nil_r. reflexivity.
  - destruct (findAgent AGENTS s) as [a|]; rewrite IH, <- app_assoc;
      reflexivity.
Qed.

Lemma resolveSlugs_spec slugs :
  resolveSlugs AGENTS slugs =
  (Spec.resolved AGENTS slugs, Spec.unresolved AGENTS slugs).
Proof. unfold resolveSlugs. rewrite resolve_loop. reflexivity. Qed.

Lemma resolve_lengths slugs :
  (length (Spec.resolved AGENTS slugs) +
   length (Spec.unresolved AGENTS slugs) = length slugs)%nat.
Proof.
  induction slugs as [|s slugs IH]; [reflexivity|].
  simpl. destruct (findAgent AGENTS s); simpl; rewrite ?length_app; simpl;
    lia.
Qed.

Lemma unresolved_In slugs s :
  In s (Spec.unresolved AGENTS slugs) <->
  In s slugs /\ forall a, In a AGENTS -> slug a <> s.
Proof.
  unfold Spec.unresolved. rewrite filter_In, <- findAgent_None.
  destruct (findAgent AGENTS s); intuition congruence.
Qed.

Lemma resolved_all slugs :
  Spec.unresolved AGENTS slugs = [] ->
  Forall2 (fun s a => findAgent AGENTS s = Some a) slugs
    (Spec.resolved AGENTS slugs).
Proof.
  induction slugs as [|s slugs IH]; simpl; intros Hnone.
  - constructor.
  - destruct (findAgent AGENTS s) as [a|] eqn:Hfind; [|discriminate].
    simpl. constructor; auto.
Qed.

Lemma comparisonText_head agents :
  Spec.headChar (comparisonText agents) = Some "#"%char.
Proof.
  unfold comparisonText, unlines, Js.join, comparisonLines.
  reflexivity.
Qed.

Lemma compareNotFoundText_head notFound :
  Spec.headChar (compareNotFoundText notFound) = Some "A"%char.
Proof. reflexivity. Qed.

End CompareFacts.

(** C3. A compare call of two to five slugs of which at least one matches
    no agent's slug exactly is answered with the message that lists the
    unresolved slugs, all of them and only them, in input order; the answer
    is not a comparison of any list of agents. *)
Theorem compare_unresolved (AGENTS : list Agent) (slugs : list string) :
  (2 <= length slugs <= 5)%nat ->
  (exists s, In s slugs /\ forall a, In a AGENTS -> slug a <> s) ->
  let missing := Spec.unresolved AGENTS slugs in
  (forall s, In s missing <->
             In s slugs /\ forall a, In a AGENTS -> slug a <> s) /\
  compareBranch AGENTS slugs = UnresolvedSlugs missing /\
  yagoo_compare AGENTS slugs =
    "Agents not found: " +:+ Js.join ", " missing +:+
    ". Use yagoo_search to find valid agent slugs." /\
  (forall agents, yagoo_compare AGENTS slugs <> comparisonText agents).
Proof.
  intros _ [s0 Hs0] missing.
  assert (Hbranch : compareBranch AGENTS slugs = UnresolvedSlugs missing).
  { unfold compareBranch. rewrite resolveSlugs_spec. fold missing.
    apply unresolved_In in Hs0. fold missing in Hs0.
    destruct missing as [|m rest]; [destruct Hs0|reflexivity]. }
  split; [intros s; apply unresolved_In|].
  split; [exact Hbranch|].
  unfold yagoo_compare. rewrite Hbranch. simpl branchText.
  split; [reflexivity|].
  intros agents Heq.
  apply (f_equal Spec.headChar) in Heq.
  rewrite compareNotFoundText_head, comparisonText_head in Heq.
  discriminate.
Qed.

Lemma compare_unresolved_witness :
  yagoo_compare Sample.agents ["cursor"; "missing"] =
  "Agents not found: missing. Use yagoo_search to find valid agent slugs.".
Proof.
  apply (compare_unresolved Sample.agents ["cursor"; "missing"]).
  - simpl. lia.
  - exists "missing". split; [simpl; auto|].
    intros a Ha. simpl in Ha.
    destruct Ha as [<-|[<-|[<-|[]]]]; discriminate.
Defined.

(** C10. With two or more slugs the minimum-count answer cannot occur:
    every slug lands in the resolved list or in the unresolved list, so
    when no slug is unresolved the resolved list is as long as the input,
    duplicates included. *)
Theorem compare_min_count_unreachable (AGENTS : list Agent)
  (slugs : list string) :
  (2 <= length slugs)%nat ->
  let agents := fst (resolveSlugs AGENTS slugs) in
  let notFound := snd (resolveSlugs AGENTS slugs) in
  (length agents + length notFound = length slugs)%nat /\
  (notFound = [] -> length agents = length slugs /\ (2 <= length agents)%nat) /\
  compareBranch AGENTS slugs <> TooFewAgents /\
  yagoo_compare AGENTS slugs <> tooFewText.
Proof.
  intros Hlen agents notFound.
  assert (Hsum : (length agents + length notFound = length slugs)%nat).
  { unfold agents, notFound. rewrite resolveSlugs_spec. simpl.
    apply resolve_lengths. }
  assert (Hbranch : compareBranch AGENTS slugs <> TooFewAgents).
  { unfold compareBranch.
    destruct (resolveSlugs AGENTS slugs) as [ag nf] eqn:Hres.
    simpl in agents, notFound. subst agents notFound.
    destruct nf as [|s nf]; simpl; [|discriminate].
    simpl in Hsum.
    destruct (length ag <? 2)%nat eqn:Hlt; [|discriminate].
    apply Nat.ltb_lt in Hlt. lia. }
  split; [exact Hsum|].
  split; [intros Hnone; rewrite Hnone in Hsum; simpl in Hsum; lia|].
  split; [exact Hbranch|].
  unfold yagoo_compare.
  destruct (compareBranch AGENTS slugs) as [nf| |ag];
    [| contradiction |]; simpl branchText; intros Heq;
    apply (f_equal Spec.headChar) in Heq;
    rewrite ?compareNotFoundText_head, ?comparisonText_head in Heq;
    discriminate.
Qed.

Lemma compare_min_count_unreachable_witness :
  yagoo_compare Sample.agents ["cursor"; "cursor"] <> tooFewText.
Proof.
  apply (compare_min_count_unreachable Sample.agents ["cursor"; "cursor"]).
  simpl. lia.
Defined.

Section PickFacts.

Lemma find_FirstWhere {A : Type} (p : A -> bool) l :
  Spec.FirstWhere (fun x => p x = true) l (find p l).
Proof.
  induction l as [|x l IH]; simpl.
  - constructor.
  - destruct (p x) eqn:Hx.
    + exists [], l. repeat split; auto.
    + destruct (find p l) as [a|]; simpl in *.
      * destruct IH as [before [after [Hl [Ha Hb]]]].
        exists (x :: before), after. subst l.
        repeat split; auto. constructor; [congruence|exact Hb].
      * constructor; [congruence|exact IH].
Qed.

Lemma FirstWhere_iff {A : Type} (P Q : A -> Prop) l pick :
  (forall x, P x <-> Q x) ->
  Spec.FirstWhere P l pick -> Spec.FirstWhere Q l pick.
Proof.
  intros HPQ. destruct pick as [a|]; simpl.
  - intros [before [after [Hl [Ha Hb]]]].
    exists before, after. repeat split; [exact Hl|apply HPQ, Ha|].
    eapply Forall_impl; [|exact Hb]. intros x Hx HQ. apply Hx, HPQ, HQ.
  - intros Hall. eapply Forall_impl; [|exact Hall].
    intros x Hx HQ. apply Hx, HPQ, HQ.
Qed.

Lemma isBudget_true a :
  isBudget a = true <->
  pricing_model a = "free" \/ pricing_model a = "open_source" \/
  pricing_model a = "freemium".
Proof.
  unfold isBudget. rewrite !orb_true_iff, !String.eqb_eq. tauto.
Qed.

Lemma isAutonomous_true a :
  isAutonomous a = true <-> autonomy_level a = "fully_autonomous".
Proof. unfold isAutonomous. apply String.eqb_eq. Qed.

End PickFacts.

(** C7. When every slug of a compare call resolves, the answer is the
    comparison of the resolved agents in input order, and its quick
    recommendations are: the first agent whose pricing model is free,
    open_source or freemium; the first whose autonomy level is
    fully_autonomous; the first with protocol support.  A pick with no
    qualifying agent contributes no line. *)
Theorem compare_recommendations (AGENTS : list Agent) (slugs : list string) :
  (2 <= length slugs <= 5)%nat ->
  Forall (fun s => exists a, In a AGENTS /\ slug a = s) slugs ->
  exists agents freeAgent autonomousAgent mcpAgent before,
    Forall2 (fun s a => findAgent AGENTS s = Some a) slugs agents /\
    yagoo_compare AGENTS slugs = unlines (comparisonLines agents) /\
    comparisonLines agents =
      before ++ ["## Quick Recommendations"] ++
      pickLine "Budget-friendly" freeAgent ++
      pickLine "For autonomous operation" autonomousAgent ++
      pickLine "MCP integration" mcpAgent /\
    Spec.FirstWhere
      (fun a => pricing_model a = "free" \/ pricing_model a = "open_source" \/
                pricing_model a = "freemium") agents freeAgent /\
    Spec.FirstWhere
      (fun a => autonomy_level a = "fully_autonomous") agents autonomousAgent /\
    Spec.FirstWhere (fun a => mcp_support a = true) agents mcpAgent /\
    (forall title, pickLine title None = []) /\
    (forall title a, pickLine title (Some a) =
                     ["- **" +:+ title +:+ "**: " +:+ name a]).
Proof.
  intros [Hlen _] Hall.
  assert (Hnone : Spec.unresolved AGENTS slugs = []).
  { apply filter_none. intros s Hs.
    rewrite Forall_forall in Hall.
    destruct (findAgent_exists AGENTS s (Hall s Hs)) as [a ->]. reflexivity. }
  pose proof (resolve_lengths AGENTS slugs) as Hsum.
  rewrite Hnone in Hsum. simpl in Hsum.
  set (agents := Spec.resolved AGENTS slugs) in *.
  assert (Hbranch : compareBranch AGENTS slugs = Comparison agents).
  { unfold compareBranch. rewrite resolveSlugs_spec, Hnone. fold agents.
    simpl. destruct (length agents <? 2)%nat eqn:Hlt; [|reflexivity].
    apply Nat.ltb_lt in Hlt. lia. }
  exists agents, (find isBudget agents), (find isAutonomous agents),
    (find mcp_support agents).
  eexists.
  split; [apply resolved_all, Hnone|].
  split; [unfold yagoo_compare; rewrite Hbranch; reflexivity|].
  split.
  { unfold comparisonLines, recommendationLines.
    rewrite !app_assoc. reflexivity. }
  split; [eapply FirstWhere_iff; [apply isBudget_true|apply find_FirstWhere]|].
  split; [eapply FirstWhere_iff; [apply isAutonomous_true|apply find_FirstWhere]|].
  split; [apply find_FirstWhere|].
  split; reflexivity.
Qed.

Lemma compare_recommendations_witness :
  exists agents freeAgent autonomousAgent mcpAgent,
    yagoo_compare Sample.agents ["midjourney"; "firecrawl"] =
      unlines (comparisonLines agents) /\
    Spec.FirstWhere
      (fun a => pricing_model a = "free" \/ pricing_model a = "open_source" \/
                pricing_model a = "freemium") agents freeAgent /\
    Spec.FirstWhere
      (fun a => autonomy_level a = "fully_autonomous") agents autonomousAgent /\
    Spec.FirstWhere (fun a => mcp_support a = true) agents mcpAgent.
Proof.
  destruct (compare_recommendations Sample.agents ["midjourney"; "firecrawl"])
    as (agents & freeAgent & autonomousAgent & mcpAgent & before & H).
  - simpl. lia.
  - repeat constructor.
    + exists Sample.midjourney. simpl. auto.
    + exists Sample.firecrawl. simpl. auto.
  - exists agents, freeAgent, autonomousAgent, mcpAgent. tauto.
Defined.

(** ** The search filter *)

Section FilterFacts.

Lemma filter_filter {A : Type} (f g : A -> bool) l :
  filter f (filter g l) = filter (fun x => g x && f x) l.
Proof.
  induction l as [|x l IH]; [reflexivity|].
  simpl. destruct (g x); simpl; rewrite IH; reflexivity.
Qed.

Lemma filter_idem {A : Type} (f : A -> bool) l :
  filter f (filter f l) = filter f l.
Proof.
  rewrite filter_filter. apply filter_ext.
  intros x. destruct (f x); reflexivity.
Qed.

Lemma filter_all {A : Type} (l : list A) : filter (fun _ => true) l = l.
Proof. induction l as [|x l IH]; simpl; [|rewrite IH]; reflexivity. Qed.

(** The two steps of the handler are one pass with the conjunction of
    the conditions of the parameters that count as given. *)
Lemma filterAgents_keeps catalog category pricing :
  filterAgents catalog category pricing =
  filter (Spec.keeps (Spec.given category) (Spec.given pricing)) catalog.
Proof.
  unfold filterAgents, Spec.keeps, Spec.given.
  destruct category as [cat|], pricing as [p|];
    try destruct (Js.truthy cat); try destruct (Js.truthy p);
    rewrite ?filter_filter; try (symmetry; apply filter_all);
    apply filter_ext; intros a;
    rewrite ?(String.eqb_sym (primary_category a)),
            ?(String.eqb_sym (pricing_model a)), ?andb_true_r;
    reflexivity.
Qed.

Lemma given_nonempty x : x <> Some EmptyString -> Spec.given x = x.
Proof.
  destruct x as [[|c s]|]; simpl; [congruence|reflexivity|reflexivity].
Qed.

Lemma keeps_true category pricing a :
  Spec.keeps category pricing a = true <->
  (forall cat, category = Some cat ->
               cat = primary_category a \/ In cat (secondary_categories a)) /\
  (forall p, pricing = Some p -> p = pricing_model a).
Proof.
  unfold Spec.keeps. rewrite andb_true_iff.
  assert (Hex : forall cat l,
             existsb (String.eqb cat) l = true <-> In cat l).
  { intros cat l. rewrite existsb_exists. split.
    - intros [x [Hin Heq]]. apply String.eqb_eq in Heq. congruence.
    - intros Hin. exists cat. split; [exact Hin|apply String.eqb_refl]. }
  destruct category as [cat|], pricing as [p|];
    rewrite ?orb_true_iff, ?Hex, ?String.eqb_eq;
    split; intros [H1 H2]; split; intros; try congruence; auto.
Qed.

End FilterFacts.

(** C4, as the code has it.  An empty-string parameter counts as not
    given.  With that reading the filter keeps exactly the agents, in
    catalog order, for which a given category is the primary category or
    one of the secondary categories and a given pricing is the pricing
    model, both conditions together; a given value that no agent matches
    leaves the empty list. *)
Theorem filter_contract (catalog : list Agent) (category pricing : option string) :
  filterAgents catalog category pricing =
    Spec.filterBySpec catalog (Spec.given category) (Spec.given pricing) /\
  (category <> Some EmptyString -> pricing <> Some EmptyString ->
   filterAgents catalog category pricing =
     Spec.filterBySpec catalog category pricing) /\
  (forall a,
      In a (filterAgents catalog category pricing) <->
      In a catalog /\
      (forall cat, Spec.given category = Some cat ->
                   cat = primary_category a \/ In cat (secondary_categories a)) /\
      (forall p, Spec.given pricing = Some p -> p = pricing_model a)) /\
  ((forall a, In a catalog ->
              Spec.keeps (Spec.given category) (Spec.given pricing) a = false) ->
   filterAgents catalog category pricing = []).
Proof.
  pose proof (filterAgents_keeps catalog category pricing) as Hkeeps.
  split; [exact Hkeeps|].
  split.
  { intros Hc Hp. rewrite Hkeeps, !given_nonempty by assumption. reflexivity. }
  split.
  { intros a. rewrite Hkeeps, filter_In, keeps_true. reflexivity. }
  intros Hnone. rewrite Hkeeps. apply filter_none. exact Hnone.
Qed.

Lemma filter_contract_witness :
  filterAgents Sample.agents (Some "coding_development") (Some "freemium") =
  [Sample.firecrawl] /\
  filterAgents Sample.agents (Some "no_such_category") None = [].
Proof.
  split.
  - rewrite (proj1 (proj2 (filter_contract Sample.agents
               (Some "coding_development") (Some "freemium"))));
      [reflexivity|discriminate|discriminate].
  - apply (filter_contract Sample.agents (Some "no_such_category") None).
    intros a Ha. simpl in Ha.
    destruct Ha as [<-|[<-|[<-|[]]]]; reflexivity.
Defined.

(** The filter contract as stated fails for the empty string: given as
    the category it matches no agent of the sample catalog, yet the handler
    keeps every agent. *)
Lemma filter_empty_string_counterexample :
  Spec.filterBySpec Sample.agents (Some EmptyString) None = [] /\
  filterAgents Sample.agents (Some EmptyString) None = Sample.agents /\
  filterAgents Sample.agents (Some EmptyString) None <>
    Spec.filterBySpec Sample.agents (Some EmptyString) None.
Proof.
  split; [reflexivity|]. split; [reflexivity|]. discriminate.
Qed.

(** C8. Filtering is idempotent: a second pass with the same category and
    pricing parameters returns the list of the first pass unchanged. *)
Theorem filter_idempotent (subset : list Agent) (category pricing : option string) :
  filterAgents (filterAgents subset category pricing) category pricing =
  filterAgents subset category pricing.
Proof.
  rewrite !filterAgents_keeps. apply filter_idem.
Qed.

(** ** Category counts *)

Section CategoryFacts.

Variable AGENTS : list Agent.

Lemma count_loop (catalog : list Agent) (counts : gmap string nat) key :
  default 0%nat (fold_left countStep catalog counts !! key) =
  (default 0 (counts !! key) + Spec.primaryCount catalog key)%nat.
Proof.
  revert counts.
  induction catalog as [|a catalog IH]; intros counts.
  - simpl. unfold Spec.primaryCount. simpl. lia.
  - simpl fold_left. rewrite IH. unfold countStep at 1.
    unfold Spec.primaryCount. simpl filter.
    destruct (String.eqb_spec (primary_category a) key) as [Heq|Hne].
    + subst key. rewrite lookup_insert_eq. simpl. lia.
    + rewrite lookup_insert_ne by exact Hne. reflexivity.
Qed.

Lemma countOf_primaryCount key :
  countOf AGENTS key = Spec.primaryCount AGENTS key.
Proof.
  unfold countOf, categoryCounts.
  rewrite count_loop, lookup_empty. reflexivity.
Qed.

Lemma primaryCount_cons a catalog key :
  Spec.primaryCount (a :: catalog) key =
  ((if String.eqb (primary_category a) key then 1 else 0) +
   Spec.primaryCount catalog key)%nat.
Proof.
  unfold Spec.primaryCount. simpl.
  destruct (String.eqb (primary_category a) key); reflexivity.
Qed.

Lemma list_sum_map_add {A : Type} (f g : A -> nat) l :
  list_sum (map (fun x => (f x + g x)%nat) l) =
  (list_sum (map f l) + list_sum (map g l))%nat.
Proof. induction l as [|x l IH]; simpl; lia. Qed.

(** Among distinct keys exactly one equals a key of the list. *)
Lemma one_key_matches (k : string) (keys : list string) :
  NoDup keys -> In k keys ->
  list_sum (map (fun k' => if String.eqb k k' then 1 else 0)%nat keys) = 1%nat.
Proof.
  induction 1 as [|k0 keys Hnotin Hnodup IH]; intros Hin; [destruct Hin|].
  simpl. destruct (String.eqb_spec k k0) as [Heq|Hne].
  - subst k0.
    assert (Hzero : list_sum
              (map (fun k' => if String.eqb k k' then 1 else 0)%nat keys)
            = 0%nat).
    { clear IH Hnodup Hin.
      induction keys as [|k1 keys IHk]; [reflexivity|].
      simpl. destruct (String.eqb_spec k k1) as [Heq|Hne].
      - destruct Hnotin. left. auto.
      - apply IHk. intros Hk. apply Hnotin. right. exact Hk. }
    rewrite Hzero. reflexivity.
  - destruct Hin as [Heq|Hin]; [congruence|]. apply IH, Hin.
Qed.

Lemma primaryCount_total (catalog : list Agent) (keys : list string) :
  NoDup keys ->
  (forall a, In a catalog -> In (primary_category a) keys) ->
  list_sum (map (Spec.primaryCount catalog) keys) = length catalog.
Proof.
  intros Hnodup.
  induction catalog as [|a catalog IH]; intros Hkeys.
  - unfold Spec.primaryCount. simpl. clear.
    induction keys as [|k keys IHk]; [reflexivity|exact IHk].
  - rewrite (map_ext _ _ (primaryCount_cons a catalog)).
    rewrite list_sum_map_add, IH
      by (intros b Hb; apply Hkeys; right; exact Hb).
    rewrite one_key_matches;
      [reflexivity | exact Hnodup | apply Hkeys; left; reflexivity].
Qed.

End CategoryFacts.

(** C5. The listing counts for each key of the label table the agents whose
    primary category is that key (secondary categories play no part) and
    lists every key of the table in table order, also with count 0.  In a
    catalog that meets the invariant of the data model (the keys of the
    table are distinct and every agent's primary category is one of them)
    the listed counts add up to the number of agents. *)
Theorem category_listing (AGENTS : list Agent) (labels : list (string * string)) :
  (forall key, countOf AGENTS key = Spec.primaryCount AGENTS key) /\
  yagoo_list_categories AGENTS labels =
    unlines
      ([ "# YAGOO Agent Categories";
         EmptyString;
         "Total: " +:+ Js.ofNat (length AGENTS) +:+ " agents across " +:+
           Js.ofNat (size (categoryCounts AGENTS)) +:+ " categories";
         EmptyString ] ++
       map (fun entry =>
              "- **" +:+ snd entry +:+ "** (" +:+ fst entry +:+ "): " +:+
              Js.ofNat (Spec.primaryCount AGENTS (fst entry)) +:+ " agent" +:+
              plural (Spec.primaryCount AGENTS (fst entry))) labels ++
       [ EmptyString;
         "*Use yagoo_search with category filter to explore specific categories.*" ]) /\
  (NoDup (map fst labels) ->
   (forall a, In a AGENTS -> In (primary_category a) (map fst labels)) ->
   list_sum (map (fun entry => countOf AGENTS (fst entry)) labels) =
     length AGENTS).
Proof.
  split; [apply countOf_primaryCount|].
  split.
  - unfold yagoo_list_categories. do 3 f_equal.
    apply map_ext. intros [key label]. unfold categoryLine.
    rewrite countOf_primaryCount. reflexivity.
  - intros Hnodup Hkeys.
    rewrite <- (primaryCount_total AGENTS (map fst labels) Hnodup Hkeys).
    rewrite map_map. apply f_equal, map_ext.
    intros entry. apply countOf_primaryCount.
Qed.

Lemma category_listing_witness :
  list_sum (map (fun entry => countOf Sample.agents (fst entry)) Sample.labels) =
  length Sample.agents.
Proof.
  apply (category_listing Sample.agents Sample.labels).
  - simpl. repeat constructor; simpl; intuition discriminate.
  - intros a Ha. simpl in Ha.
    destruct Ha as [<-|[<-|[<-|[]]]]; simpl; auto.
Defined.

(** Without the catalog invariant the counts fall short: an agent filed
    under a key that the table lacks is listed nowhere. *)
Lemma category_listing_needs_invariant :
  list_sum (map (fun entry => countOf (Sample.stray :: Sample.agents) (fst entry))
              Sample.labels) = 3%nat /\
  length (Sample.stray :: Sample.agents) = 4%nat.
Proof. split; vm_compute; reflexivity. Qed.

(** ** Lookup by slug *)

(** C6. A slug resolves only by an exact match, to the first agent of the
    catalog with that slug, and the answer is then that agent's full
    profile.  On a miss the answer is the not-found text with at most three
    suggestions: the slugs of the first three agents, in catalog order,
    whose slug contains the query slug or whose lower-cased name contains
    the lower-cased query slug. *)
Theorem get_agent_lookup (AGENTS : list Agent) (labels : list (string * string))
  (s : string) :
  Spec.FirstWhere (fun a => slug a = s) AGENTS (findAgent AGENTS s) /\
  (forall a, findAgent AGENTS s = Some a ->
             In a AGENTS /\ slug a = s /\
             yagoo_get_agent AGENTS labels s = formatAgentDetail labels a) /\
  ((exists a, In a AGENTS /\ slug a = s) <->
   (exists a, findAgent AGENTS s = Some a)) /\
  ((forall a, In a AGENTS -> slug a <> s) ->
   exists candidates,
     candidates =
       filter (fun a => Js.includes (slug a) s ||
                        Js.includes (Js.toLowerCase (name a)) (Js.toLowerCase s))
         AGENTS /\
     (forall a, In a candidates <->
                In a AGENTS /\
                (Spec.Contains (slug a) s \/
                 Spec.Contains (Js.toLowerCase (name a)) (Js.toLowerCase s))) /\
     let suggestions := map slug (firstn 3 candidates) in
     (length suggestions <= 3)%nat /\
     yagoo_get_agent AGENTS labels s =
       "Agent " +:+ DQUOTE +:+ s +:+ DQUOTE +:+ " not found." +:+
       match suggestions with
       | [] => " Use yagoo_search to find agents."
       | _ :: _ => " Did you mean: " +:+ Js.join ", " suggestions +:+ "?"
       end).
Proof.
  split.
  { eapply FirstWhere_iff; [|apply find_FirstWhere].
    intros a. simpl. apply String.eqb_eq. }
  split.
  { intros a Hfind. destruct (findAgent_Some AGENTS s a Hfind) as [Hin Heq].
    repeat split; auto. unfold yagoo_get_agent. rewrite Hfind. reflexivity. }
  split.
  { split; [apply findAgent_exists|].
    intros [a Hfind]. exists a. apply findAgent_Some, Hfind. }
  intros Hmiss. apply findAgent_None in Hmiss.
  eexists. split; [reflexivity|].
  split.
  { intros a. rewrite filter_In, orb_true_iff, !includes_spec. reflexivity. }
  intros suggestions.
  split.
  { unfold suggestions. rewrite length_map. apply firstn_le_length. }
  unfold yagoo_get_agent. rewrite Hmiss. unfold notFoundText.
  change (suggestionsFor AGENTS s) with suggestions.
  destruct suggestions; reflexivity.
Qed.

Lemma get_agent_lookup_witness :
  yagoo_get_agent Sample.agents Sample.labels "cursor" =
    formatAgentDetail Sample.labels Sample.cursor /\
  yagoo_get_agent Sample.agents Sample.labels "curso" =
    "Agent " +:+ DQUOTE +:+ "curso" +:+ DQUOTE +:+
    " not found. Did you mean: cursor?".
Proof.
  split.
  - apply (get_agent_lookup Sample.agents Sample.labels "cursor").
    reflexivity.
  - destruct (proj2 (proj2 (proj2
      (get_agent_lookup Sample.agents Sample.labels "curso"))))
      as (candidates & Hc & _ & _ & Htext).
    + intros a Ha. simpl in Ha.
      destruct Ha as [<-|[<-|[<-|[]]]]; discriminate.
    + rewrite Htext, Hc. reflexivity.
Defined.

(** ** The printed block, as text *)

Section BlockText.

Import Scan.

Lemma scan_app (q : state) (a b : string) :
  scan q (a +:+ b) = scan (scan q a) b.
Proof.
  revert q. induction a as [|c a IH]; intros q; [reflexivity|].
  rewrite append_cons. simpl. apply IH.
Qed.

Lemma scan_Found (s : string) : scan Found s = Found.
Proof. induction s as [|c s IH]; [reflexivity|exact IH]. Qed.

(** Wherever [ENTRY_TAIL] occurs, the scan finds it. *)
Lemma scan_complete (q : state) (s : string) :
  Spec.Contains s ENTRY_TAIL -> scan q s = Found.
Proof.
  intros [before [after ->]].
  rewrite !scan_app.
  assert (Htail : scan (scan q before) ENTRY_TAIL = Found)
    by (destruct (scan q before); reflexivity).
  rewrite Htail. apply scan_Found.
Qed.

Lemma contains_entry_tail (s : string) :
  Spec.Contains s ENV_ENTRY -> Spec.Contains s ENTRY_TAIL.
Proof.
  intros [before [after ->]].
  exists (before +:+ String "034" "en"), (" " +:+ after).
  rewrite append_assoc. reflexivity.
Qed.

(** An escaped code unit never completes a match: a quote inside a
    string is written behind a backslash. *)
Lemma scan_quoteChar (q : state) (c : ascii) :
  calm q -> calm (scan q (Json.quoteChar c)).
Proof.
  unfold calm.
  destruct c as [[] [] [] [] [] [] [] []];
    intros [-> | ->]; vm_compute; auto.
Qed.

Lemma scan_quoteBody (q : state) (s : string) :
  calm q -> calm (scan q (Json.quoteBody s)).
Proof.
  revert q. induction s as [|c s IH]; intros q Hq; [exact Hq|].
  simpl Json.quoteBody. rewrite scan_app.
  apply IH, scan_quoteChar, Hq.
Qed.

Lemma scan_quote (s : string) : closed (scan Idle (Json.quote s)).
Proof.
  unfold Json.quote. rewrite !scan_app.
  change (scan Idle DQUOTE) with Idle.
  destruct (scan_quoteBody Idle s) as [-> | ->];
    [left; reflexivity | left; reflexivity | right; reflexivity].
Qed.

(** Behind a quoted string, a separator that starts with a comma or a
    line break resets the scan. *)
Lemma scan_separator (q : state) (c : ascii) (rest : string) :
  closed q ->
  Ascii.eqb c "v" = false -> Ascii.eqb c ":" = false ->
  scan q (String c rest) = scan Idle rest.
Proof.
  intros [-> | ->] Hv Hcolon; simpl; rewrite Hv, ?Hcolon; reflexivity.
Qed.

(** Quoted strings joined by [sep], a separator as above. *)
Lemma scan_join_quoted (c : ascii) (sep : string) (item : string)
  (items : list string) :
  Ascii.eqb c "v" = false -> Ascii.eqb c ":" = false ->
  scan Idle sep = Idle ->
  closed (scan Idle
            (Js.join (String c sep) (map Json.quote (item :: items)))).
Proof.
  intros Hv Hcolon Hsep. revert item.
  induction items as [|next items IH]; intros item.
  - apply scan_quote.
  - change (Js.join (String c sep) (map Json.quote (item :: next :: items)))
      with (Json.quote item +:+ String c sep +:+
            Js.join (String c sep) (map Json.quote (next :: items))).
    rewrite scan_app, append_cons.
    rewrite (scan_separator _ c _ (scan_quote item) Hv Hcolon).
    rewrite scan_app, Hsep. apply IH.
Qed.


Lemma scan_array (items : list string) :
  scan Idle (Json.stringifyValue Json.GAP (Json.Arr items)) = Idle.
Proof.
  unfold Json.stringifyValue, Json.block.
  destruct items as [|item items]; [reflexivity|].
  change (map Json.quote (item :: items)) with
    (Json.quote item :: map Json.quote items).
  cbv beta iota zeta.
  rewrite !scan_app.
  match goal with
  | |- context [scan ?q (Js.join ?sep ?l)] =>
      assert (Hc : closed (scan q (Js.join sep l)))
        by exact (scan_join_quoted "," (NL +:+ Json.GAP +:+ Json.GAP)
                    item items eq_refl eq_refl eq_refl);
      destruct Hc as [-> | ->]
  end; reflexivity.
Qed.

(** The scan of a block without an [env] entry ends idle. *)
Lemma scan_block_absent (cfg : McpConfig.t) :
  McpConfig.env cfg = None ->
  scan Idle (connectionBlock cfg) = Idle.
Proof.
  intros Hnone.
  unfold connectionBlock, connectionObject. rewrite Hnone.
  unfold Json.stringify, Json.block. simpl map. cbv beta iota zeta.
  unfold Js.join, String.concat.
  rewrite !scan_app.
  match goal with
  | |- context [scan ?q (Json.quote (McpConfig.command cfg))] =>
      assert (Hc : closed (scan q (Json.quote (McpConfig.command cfg))))
        by exact (scan_quote _);
      destruct Hc as [-> | ->]
  end;
  match goal with
  | |- context [scan ?q (Json.block "[" "]" Json.GAP ?l)] =>
      change (scan q (Json.block "[" "]" Json.GAP l)) with
        (scan Idle
           (Json.stringifyValue Json.GAP (Json.Arr (McpConfig.args cfg))))
  end;
  rewrite scan_array; reflexivity.
Qed.

(** A block without an [env] field shows no [env] entry. *)
Lemma block_absent (cfg : McpConfig.t) :
  McpConfig.env cfg = None ->
  Js.includes (connectionBlock cfg) ENV_ENTRY = false.
Proof.
  intros Hnone.
  destruct (Js.includes (connectionBlock cfg) ENV_ENTRY) eqn:Hinc;
    [|reflexivity].
  apply includes_spec, contains_entry_tail in Hinc.
  apply (scan_complete Idle) in Hinc.
  rewrite scan_block_absent in Hinc by exact Hnone. discriminate.
Qed.

(** A block with an [env] field shows the entry, behind the arguments. *)
Lemma block_present (cfg : McpConfig.t) (e : list (string * string)) :
  McpConfig.env cfg = Some e ->
  connectionBlock cfg =
    ("{" +:+ NL +:+ "  " +:+
     Json.quote "command" +:+ ": " +:+ Json.quote (McpConfig.command cfg) +:+
     "," +:+ NL +:+ "  " +:+
     Json.quote "args" +:+ ": " +:+
     Json.stringifyValue Json.GAP (Json.Arr (McpConfig.args cfg)) +:+
     "," +:+ NL +:+ "  ") +:+
    ENV_ENTRY +:+
    (Json.stringifyValue Json.GAP (Json.Obj e) +:+ NL +:+ "}").
Proof.
  intros Hsome.
  unfold connectionBlock, connectionObject. rewrite Hsome.
  unfold Json.stringify, Json.block. simpl map. cbv beta iota zeta.
  unfold Js.join, String.concat, ENV_ENTRY.
  rewrite !append_assoc. reflexivity.
Qed.

Lemma block_text_absent (cfg : McpConfig.t) :
  McpConfig.env cfg = None ->
  connectionBlock cfg =
    "{" +:+ NL +:+ "  " +:+
    Json.quote "command" +:+ ": " +:+ Json.quote (McpConfig.command cfg) +:+
    "," +:+ NL +:+ "  " +:+
    Json.quote "args" +:+ ": " +:+
    Json.stringifyValue Json.GAP (Json.Arr (McpConfig.args cfg)) +:+
    NL +:+ "}".
Proof.
  intros Hnone.
  unfold connectionBlock, connectionObject. rewrite Hnone.
  unfold Json.stringify, Json.block. simpl map. cbv beta iota zeta.
  unfold Js.join, String.concat.
  rewrite !append_assoc. reflexivity.
Qed.

End BlockText.

(** ** Connection configuration *)

(** C9. For an agent with protocol support and a configuration, the block
    handed to the JSON printer holds the command and the arguments, and an
    [env] entry exactly when the configuration has an [env] field; with no
    such field the object has the two entries only, and the printed text
    shows no [env] key at all.  The full profile and the protocol-capable
    listing both print that block. *)
Theorem connection_block_env (AGENTS : list Agent)
  (labels : list (string * string)) (a : Agent) (cfg : McpConfig.t) :
  mcp_support a = true ->
  mcp_config a = Some cfg ->
  In ("command", Json.Str (McpConfig.command cfg)) (connectionObject cfg) /\
  In ("args", Json.Arr (McpConfig.args cfg)) (connectionObject cfg) /\
  (In "env" (map fst (connectionObject cfg)) <-> McpConfig.env cfg <> None) /\
  (McpConfig.env cfg = None ->
   connectionObject cfg =
     [("command", Json.Str (McpConfig.command cfg));
      ("args", Json.Arr (McpConfig.args cfg))]) /\
  (forall e, McpConfig.env cfg = Some e ->
   connectionObject cfg =
     [("command", Json.Str (McpConfig.command cfg));
      ("args", Json.Arr (McpConfig.args cfg));
      ("env", Json.Obj e)]) /\
  (Js.includes (Json.stringify (connectionObject cfg))
     (Json.quote "env" +:+ ": ") = true <->
   McpConfig.env cfg <> None) /\
  (McpConfig.env cfg = None ->
   Json.stringify (connectionObject cfg) =
     "{" +:+ NL +:+ "  " +:+
     Json.quote "command" +:+ ": " +:+ Json.quote (McpConfig.command cfg) +:+
     "," +:+ NL +:+ "  " +:+
     Json.quote "args" +:+ ": " +:+
     Json.stringifyValue Json.GAP (Json.Arr (McpConfig.args cfg)) +:+
     NL +:+ "}") /\
  (forall e, McpConfig.env cfg = Some e ->
   Json.stringify (connectionObject cfg) =
     "{" +:+ NL +:+ "  " +:+
     Json.quote "command" +:+ ": " +:+ Json.quote (McpConfig.command cfg) +:+
     "," +:+ NL +:+ "  " +:+
     Json.quote "args" +:+ ": " +:+
     Json.stringifyValue Json.GAP (Json.Arr (McpConfig.args cfg)) +:+
     "," +:+ NL +:+ "  " +:+
     Json.quote "env" +:+ ": " +:+
     Json.stringifyValue Json.GAP (Json.Obj e) +:+ NL +:+ "}") /\
  (exists before after,
      detailLines labels a =
        before ++
        ["## MCP Server Configuration"; "```json";
         Json.stringify (connectionObject cfg); "```"] ++ after) /\
  (In a AGENTS ->
   exists before after,
      listMcpLines AGENTS =
        before ++
        ["**Connection:**"; "```json";
         Json.stringify (connectionObject cfg); "```"] ++ after).
Proof.
  intros Hsupport Hconfig.
  split; [left; reflexivity|].
  split; [right; left; reflexivity|].
  split.
  { unfold connectionObject.
    destruct (McpConfig.env cfg) as [e|]; simpl.
    - split; [discriminate|auto].
    - split; [|congruence].
      intros [H|[H|[]]]; discriminate. }
  split.
  { intros Hnone. unfold connectionObject. rewrite Hnone. reflexivity. }
  split.
  { intros e Hsome. unfold connectionObject. rewrite Hsome. reflexivity. }
  split.
  { change (Json.stringify (connectionObject cfg)) with (connectionBlock cfg).
    change (Json.quote "env" +:+ ": ") with Scan.ENV_ENTRY.
    destruct (McpConfig.env cfg) as [e|] eqn:Henv.
    - split; [discriminate|]. intros _.
      apply includes_spec. eexists. eexists.
      apply (block_present cfg e Henv).
    - rewrite (block_absent cfg Henv). split; [discriminate|congruence]. }
  split; [apply block_text_absent|].
  split.
  { intros e Hsome.
    change (Json.stringify (connectionObject cfg)) with (connectionBlock cfg).
    rewrite (block_present cfg e Hsome).
    unfold Scan.ENV_ENTRY. rewrite !append_assoc. reflexivity. }
  split.
  { unfold detailLines, detailConfig, mcpConfigOf.
    rewrite Hsupport, Hconfig.
    exists (detailHeader labels a ++ [EmptyString]).
    exists ((if Js.present (McpConfig.description cfg)
             then ["*" +:+ Js.orElse (McpConfig.description cfg) EmptyString
                   +:+ "*"]
             else []) ++ detailBody a).
    rewrite <- !app_assoc. reflexivity. }
  intros Hin.
  assert (Hlisted : In a (mcpAgents AGENTS)).
  { unfold mcpAgents, mcpConfigOf. apply filter_In.
    rewrite Hsupport, Hconfig. auto. }
  apply in_split in Hlisted. destruct Hlisted as [l1 [l2 Hsplit]].
  unfold listMcpLines. rewrite Hsplit, flat_map_app. simpl flat_map.
  unfold mcpEntry at 2. rewrite Hconfig.
  exists ([ "# MCP-Enabled Agents";
            EmptyString;
            Js.ofNat (length (l1 ++ a :: l2)) +:+
              " agents with MCP server support:";
            EmptyString ] ++
          flat_map mcpEntry l1 ++
          [ "## " +:+ name a; "*" +:+ tagline a +:+ "*"; EmptyString ]).
  exists ((if Js.present (McpConfig.description cfg)
           then [ Js.orElse (McpConfig.description cfg) EmptyString ]
           else []) ++
          [ EmptyString ] ++ flat_map mcpEntry l2 ++
          [ "---";
            "*Add to Claude Code: `claude mcp add <name> -- <command> <args>`*" ]).
  rewrite <- !app_assoc. reflexivity.
Qed.

Lemma connection_block_env_witness :
  In "env" (map fst (connectionObject Sample.firecrawlConfig)) /\
  ~ In "env" (map fst (connectionObject Sample.cursorConfig)) /\
  Json.stringify (connectionObject Sample.cursorConfig) =
    "{" +:+ NL +:+ "  " +:+ Json.quote "command" +:+ ": " +:+
    Json.quote "cursor-mcp" +:+ "," +:+ NL +:+ "  " +:+
    Json.quote "args" +:+ ": []" +:+ NL +:+ "}".
Proof.
  split; [|split].
  - apply (connection_block_env Sample.agents Sample.labels
             Sample.firecrawl Sample.firecrawlConfig);
      [reflexivity|reflexivity|discriminate].
  - intros Henv.
    apply (connection_block_env Sample.agents Sample.labels
             Sample.cursor Sample.cursorConfig) in Henv;
      [apply Henv|..]; reflexivity.
  - destruct (connection_block_env Sample.agents Sample.labels
                Sample.cursor Sample.cursorConfig eq_refl eq_refl)
      as (_ & _ & _ & _ & _ & _ & Htext & _).
    rewrite (Htext eq_refl). vm_compute. reflexivity.
Defined.

(** * Further properties of the handlers *)

(** ** Scoring: bounds, case and variations *)

Section ScoreBounds.

(** The loops of [scoreAgent] add up the weight table. *)
Lemma scoreAgent_sum labels a query :
  scoreAgent labels a query = Spec.scoreByWeights labels a query.
Proof.
  unfold scoreAgent, Spec.scoreByWeights, Spec.queryWords, Spec.categoryLabel.
  set (q := Js.toLowerCase query).
  set (words := filter _ (Js.splitWhiteSpace q)).
  rewrite bumpWords_hits.
  rewrite (fold_left_add _
    (fun nif => -5 * Spec.hits (Js.toLowerCase nif) words))
    by (intros; apply bumpWords_hits).
  rewrite (fold_left_add _
    (fun bf => Spec.weight (Js.includes (Js.toLowerCase bf) q) 25 +
               8 * Spec.hits (Js.toLowerCase bf) words))
    by (intros; rewrite bumpWords_hits, bump_weight; lia).
  rewrite (fold_left_add _
    (fun cap => Spec.weight (Js.includes (Js.toLowerCase cap) q) 15 +
                5 * Spec.hits (Js.toLowerCase cap) words))
    by (intros; rewrite bumpWords_hits, bump_weight; lia).
  rewrite (fold_left_add _
    (fun tag => Spec.weight (Js.includes q tag || Js.includes tag q) 20 +
                10 * Spec.hits tag words))
    by (intros; rewrite bumpWords_hits, bump_weight; lia).
  rewrite !bump_weight.
  destruct (lookupEntry labels (primary_category a)) as [label|]; simpl;
    [|lia].
  destruct (Js.toLowerCase label); simpl; lia.
Qed.

Lemma hits_range text words :
  0 <= Spec.hits text words <= Z.of_nat (length words).
Proof.
  unfold Spec.hits.
  pose proof (filter_length_le (Js.includes text) words). lia.
Qed.

Lemma weight_range c w : 0 <= w -> 0 <= Spec.weight c w <= w.
Proof. unfold Spec.weight. destruct c; lia. Qed.

Lemma sumZ_range {A : Type} (f : A -> Z) (lo hi : Z) (l : list A) :
  (forall x, lo <= f x <= hi) ->
  lo * Z.of_nat (length l) <= Spec.sumZ (map f l) <= hi * Z.of_nat (length l).
Proof.
  intros Hf. induction l as [|x l IH]; simpl; [lia|].
  specialize (Hf x). lia.
Qed.

End ScoreBounds.

(** X1. The score lies between minus five times the number of
    (not-ideal-for entry, word) pairs and the sum of all positive weights;
    an agent without not-ideal-for entries never scores below zero. *)
Theorem score_bounds (labels : list (string * string)) (a : Agent)
  (query : string) :
  let W := Z.of_nat (length (Spec.queryWords query)) in
  let count (l : list string) := Z.of_nat (length l) in
  -5 * W * count (not_ideal_for a) <= scoreAgent labels a query /\
  scoreAgent labels a query <=
    80 + (20 + 10 * W) * count (tags a) +
    (15 + 5 * W) * count (capabilities a) +
    (25 + 8 * W) * count (best_for a) + 10 * W /\
  (not_ideal_for a = [] -> 0 <= scoreAgent labels a query).
Proof.
  intros W count. rewrite scoreAgent_sum. unfold Spec.scoreByWeights.
  set (q := Js.toLowerCase query).
  set (words := Spec.queryWords query).
  assert (HW : 0 <= W) by (unfold W; lia).
  pose proof (weight_range (Js.includes (Js.toLowerCase (name a)) q) 50) as Hn.
  pose proof (weight_range (Js.includes (Js.toLowerCase (tagline a)) q) 30)
    as Ht.
  pose proof (hits_range (Spec.categoryLabel labels a) words) as Hc.
  pose proof (sumZ_range
    (fun tag => Spec.weight (Js.includes q tag || Js.includes tag q) 20 +
                10 * Spec.hits tag words) 0 (20 + 10 * W) (tags a)) as Htags.
  pose proof (sumZ_range
    (fun cap => Spec.weight (Js.includes (Js.toLowerCase cap) q) 15 +
                5 * Spec.hits (Js.toLowerCase cap) words)
    0 (15 + 5 * W) (capabilities a)) as Hcaps.
  pose proof (sumZ_range
    (fun bf => Spec.weight (Js.includes (Js.toLowerCase bf) q) 25 +
               8 * Spec.hits (Js.toLowerCase bf) words)
    0 (25 + 8 * W) (best_for a)) as Hbf.
  pose proof (sumZ_range
    (fun nif => -5 * Spec.hits (Js.toLowerCase nif) words)
    (-5 * W) 0 (not_ideal_for a)) as Hnif.
  assert (Hhits : forall text, 0 <= Spec.hits text words <= W)
    by (intros; apply hits_range).
  assert (Hw : forall c w, 0 <= w -> 0 <= Spec.weight c w <= w)
    by (intros; apply weight_range; assumption).
  clear Hc. pose proof (Hhits (Spec.categoryLabel labels a)) as Hc.
  specialize (Htags ltac:(intros x; specialize (Hhits x);
    pose proof (Hw (Js.includes q x || Js.includes x q) 20); lia)).
  specialize (Hcaps ltac:(intros x; specialize (Hhits (Js.toLowerCase x));
    pose proof (Hw (Js.includes (Js.toLowerCase x) q) 15); lia)).
  specialize (Hbf ltac:(intros x; specialize (Hhits (Js.toLowerCase x));
    pose proof (Hw (Js.includes (Js.toLowerCase x) q) 25); lia)).
  specialize (Hnif ltac:(intros x; specialize (Hhits (Js.toLowerCase x));
    lia)).
  subst count. cbv beta.
  specialize (Hn ltac:(lia)). specialize (Ht ltac:(lia)).
  split; [lia|]. split; [lia|].
  intros Hempty. rewrite Hempty in *. simpl in *. lia.
Qed.

Lemma score_bounds_witness :
  0 <= scoreAgent Sample.labels Sample.stray "anything at all".
Proof.
  apply (score_bounds Sample.labels Sample.stray "anything at all").
  reflexivity.
Defined.

Section QueryCase.

Lemma lowerChar_idem (c : ascii) : Js.lowerChar (Js.lowerChar c) = Js.lowerChar c.
Proof. destruct c as [[] [] [] [] [] [] [] []]; vm_compute; reflexivity. Qed.

Lemma toLowerCase_idem (s : string) :
  Js.toLowerCase (Js.toLowerCase s) = Js.toLowerCase s.
Proof.
  induction s as [|c s IH]; [reflexivity|].
  simpl. rewrite lowerChar_idem, IH. reflexivity.
Qed.

Lemma scoreAgent_lowered labels a q1 q2 :
  Js.toLowerCase q1 = Js.toLowerCase q2 ->
  scoreAgent labels a q1 = scoreAgent labels a q2.
Proof. intros Heq. unfold scoreAgent. rewrite Heq. reflexivity. Qed.

End QueryCase.

(** X2. The case of the query plays no part: two queries with the same
    lower-case form give every agent the same score and every subset the
    same ranking, and so does a query and its lower-case form. *)
Theorem score_ignores_query_case (labels : list (string * string)) :
  (forall a query,
      scoreAgent labels a (Js.toLowerCase query) = scoreAgent labels a query) /\
  (forall q1 q2,
      Js.toLowerCase q1 = Js.toLowerCase q2 ->
      (forall a, scoreAgent labels a q1 = scoreAgent labels a q2) /\
      (forall subset limit,
          rank labels subset q1 limit = rank labels subset q2 limit)).
Proof.
  split.
  - intros a query. apply scoreAgent_lowered, toLowerCase_idem.
  - intros q1 q2 Heq.
    split; [intros a; apply scoreAgent_lowered, Heq|].
    intros subset limit. unfold rank, scoreAll.
    rewrite (map_ext _ (fun a => mkScored a (scoreAgent labels a q2)));
      [reflexivity|].
    intros a. rewrite (scoreAgent_lowered labels a q1 q2 Heq). reflexivity.
Qed.

Lemma score_ignores_query_case_witness :
  rank Sample.labels Sample.agents "Scrape WEBSITES" 5 =
  rank Sample.labels Sample.agents "scrape websites" 5.
Proof.
  apply (proj2 (score_ignores_query_case Sample.labels)
           "Scrape WEBSITES" "scrape websites").
  reflexivity.
Defined.

Section NoWords.

Lemma sumZ_weight {A : Type} (f : A -> Z) (p : A -> bool) (w : Z)
  (l : list A) :
  (forall x, f x = Spec.weight (p x) w) ->
  Spec.sumZ (map f l) = w * Z.of_nat (length (filter p l)).
Proof.
  intros Hf. induction l as [|x l IH]; simpl; [lia|].
  rewrite IH, Hf. unfold Spec.weight. destruct (p x); simpl length; lia.
Qed.

Lemma sumZ_zero {A : Type} (f : A -> Z) (l : list A) :
  (forall x, f x = 0) -> Spec.sumZ (map f l) = 0.
Proof.
  intros Hf. induction l as [|x l IH]; simpl; [lia|].
  rewrite IH, Hf. lia.
Qed.

End NoWords.

(** X3. A query without a token longer than two code units is scored on
    whole-query containment alone: name, tagline, and the number of tags,
    capabilities and best-for entries that match the whole query.  The
    not-ideal-for entries and the category label play no part, and the score
    is not negative. *)
Theorem score_without_words (labels : list (string * string)) (a : Agent)
  (query : string) :
  Spec.queryWords query = [] ->
  let q := Js.toLowerCase query in
  let matching (p : string -> bool) (l : list string) :=
    Z.of_nat (length (filter p l)) in
  scoreAgent labels a query =
    Spec.weight (Js.includes (Js.toLowerCase (name a)) q) 50 +
    Spec.weight (Js.includes (Js.toLowerCase (tagline a)) q) 30 +
    20 * matching (fun tag => Js.includes q tag || Js.includes tag q) (tags a) +
    15 * matching (fun cap => Js.includes (Js.toLowerCase cap) q)
           (capabilities a) +
    25 * matching (fun bf => Js.includes (Js.toLowerCase bf) q) (best_for a) /\
  0 <= scoreAgent labels a query.
Proof.
  intros Hwords q matching.
  assert (Hscore :
    scoreAgent labels a query =
    Spec.weight (Js.includes (Js.toLowerCase (name a)) q) 50 +
    Spec.weight (Js.includes (Js.toLowerCase (tagline a)) q) 30 +
    20 * matching (fun tag => Js.includes q tag || Js.includes tag q) (tags a) +
    15 * matching (fun cap => Js.includes (Js.toLowerCase cap) q)
           (capabilities a) +
    25 * matching (fun bf => Js.includes (Js.toLowerCase bf) q) (best_for a)).
  { rewrite scoreAgent_sum. unfold Spec.scoreByWeights.
    rewrite Hwords. fold q. unfold Spec.hits. simpl filter. simpl length.
    rewrite (sumZ_weight _
      (fun tag => Js.includes q tag || Js.includes tag q) 20 (tags a))
      by (intros; lia).
    rewrite (sumZ_weight _
      (fun cap => Js.includes (Js.toLowerCase cap) q) 15 (capabilities a))
      by (intros; lia).
    rewrite (sumZ_weight _
      (fun bf => Js.includes (Js.toLowerCase bf) q) 25 (best_for a))
      by (intros; lia).
    rewrite (sumZ_zero _ (not_ideal_for a)) by (intros; lia).
    unfold matching. lia. }
  split; [exact Hscore|].
  rewrite Hscore.
  pose proof (weight_range (Js.includes (Js.toLowerCase (name a)) q) 50).
  pose proof (weight_range (Js.includes (Js.toLowerCase (tagline a)) q) 30).
  unfold matching. lia.
Qed.

Lemma score_without_words_witness :
  0 <= scoreAgent Sample.labels Sample.cursor "go to it".
Proof.
  apply (score_without_words Sample.labels Sample.cursor "go to it").
  reflexivity.
Defined.

(** X4. One more tag, capability or best-for entry never lowers an
    agent's score for a query, and one more not-ideal-for entry never
    raises it. *)
Theorem score_monotone (labels : list (string * string)) (a : Agent)
  (query entry : string) :
  scoreAgent labels a query <=
    scoreAgent labels
      (withSignals a (entry :: tags a) (capabilities a) (best_for a)
         (not_ideal_for a)) query /\
  scoreAgent labels a query <=
    scoreAgent labels
      (withSignals a (tags a) (entry :: capabilities a) (best_for a)
         (not_ideal_for a)) query /\
  scoreAgent labels a query <=
    scoreAgent labels
      (withSignals a (tags a) (capabilities a) (entry :: best_for a)
         (not_ideal_for a)) query /\
  scoreAgent labels
    (withSignals a (tags a) (capabilities a) (best_for a)
       (entry :: not_ideal_for a)) query <=
    scoreAgent labels a query.
Proof.
  rewrite !scoreAgent_sum.
  unfold Spec.scoreByWeights, Spec.categoryLabel, withSignals. simpl.
  set (words := Spec.queryWords query).
  set (q := Js.toLowerCase query).
  pose proof (hits_range entry words).
  pose proof (hits_range (Js.toLowerCase entry) words).
  pose proof (weight_range (Js.includes q entry || Js.includes entry q) 20).
  pose proof (weight_range (Js.includes (Js.toLowerCase entry) q) 15).
  pose proof (weight_range (Js.includes (Js.toLowerCase entry) q) 25).
  repeat split; lia.
Qed.

(** ** Search: what the ranking returns *)

Section SearchFacts.

Variable labels : list (string * string).

Lemma rank_unfold subset query limit :
  rank labels subset query limit =
  firstn limit (sortStable byScore (positives (scoreAll labels subset query))).
Proof. reflexivity. Qed.

Lemma positives_In subset query item :
  In item (positives (scoreAll labels subset query)) <->
  In (agent item) subset /\
  item = mkScored (agent item) (scoreAgent labels (agent item) query) /\
  0 < score item.
Proof.
  unfold positives, scoreAll. rewrite filter_In, in_map_iff, Z.ltb_lt.
  split.
  - intros [[a [<- Ha]] Hpos]. simpl. auto.
  - intros [Ha [Hitem Hpos]]. split; [|exact Hpos].
    exists (agent item). split; [symmetry; exact Hitem|exact Ha].
Qed.

Lemma rank_In subset query limit item :
  In item (rank labels subset query limit) ->
  In (agent item) subset /\
  score item = scoreAgent labels (agent item) query /\
  0 < score item.
Proof.
  rewrite rank_unfold. intros Hin. apply firstn_incl in Hin.
  apply (Permutation_in _ (sortStable_perm _)) in Hin.
  apply positives_In in Hin. destruct Hin as [Ha [Hitem Hpos]].
  repeat split; [exact Ha| |exact Hpos].
  rewrite Hitem at 1. reflexivity.
Qed.

Lemma firstn_nil_iff {A : Type} (n : nat) (l : list A) :
  (1 <= n)%nat -> (firstn n l = [] <-> l = []).
Proof.
  intros Hn. destruct n as [|n]; [lia|].
  destruct l; simpl; split; congruence.
Qed.

Lemma filter_head_split {A : Type} (p : A -> bool) (l : list A) x t :
  filter p l = x :: t ->
  exists l1 l2, l = l1 ++ x :: l2 /\ Forall (fun y => p y = false) l1.
Proof.
  induction l as [|y l IH]; simpl; [discriminate|].
  destruct (p y) eqn:Hy.
  - intros Heq. injection Heq as -> _. exists [], l. split; [reflexivity|].
    constructor.
  - intros Heq. destruct (IH Heq) as [l1 [l2 [-> Hl1]]].
    exists (y :: l1), l2. split; [reflexivity|].
    constructor; assumption.
Qed.

Lemma searchText_head query results :
  Spec.headChar (searchText query results) = Some "#"%char.
Proof. reflexivity. Qed.

Lemma noResultsText_head query :
  Spec.headChar (noResultsText query) = Some "N"%char.
Proof. reflexivity. Qed.

End SearchFacts.

(** X5. Every entry of a search result is an agent of the catalog that
    passes the category and pricing filter as given, paired with its own
    score for the query, which is above zero. *)
Theorem search_results_sound (catalog : list Agent)
  (labels : list (string * string)) (query : string)
  (category pricing : option string) (limit : nat) :
  Forall (fun item =>
            In (agent item) catalog /\
            (forall cat, Spec.given category = Some cat ->
                         cat = primary_category (agent item) \/
                         In cat (secondary_categories (agent item))) /\
            (forall p, Spec.given pricing = Some p ->
                       p = pricing_model (agent item)) /\
            score item = scoreAgent labels (agent item) query /\
            0 < score item)
    (searchResults catalog labels query category pricing limit).
Proof.
  apply Forall_forall. intros item Hin.
  unfold searchResults in Hin. apply rank_In in Hin.
  destruct Hin as [Ha [Hscore Hpos]].
  rewrite filterAgents_keeps in Ha. apply filter_In in Ha.
  destruct Ha as [Ha Hkeeps]. apply keeps_true in Hkeeps.
  destruct Hkeeps as [Hcat Hprice]. auto.
Qed.

(** X6. Raising the limit only appends results: the ranking with the
    smaller limit is the initial segment of the ranking with the larger
    one. *)
Theorem rank_limit_prefix (labels : list (string * string))
  (subset : list Agent) (query : string) (n m : nat) :
  (n <= m)%nat ->
  rank labels subset query n = firstn n (rank labels subset query m).
Proof.
  intros Hnm. rewrite !rank_unfold, firstn_firstn.
  rewrite Nat.min_l by exact Hnm. reflexivity.
Qed.

Lemma rank_limit_prefix_witness :
  rank Sample.labels Sample.agents "code data" 1 =
  firstn 1 (rank Sample.labels Sample.agents "code data" 5).
Proof.
  apply (rank_limit_prefix Sample.labels Sample.agents "code data" 1 5).
  lia.
Defined.

(** X7. When the limit is not below the number of agents with a score
    above zero, nothing is cut: the ranking is a rearrangement of all of
    them, so every such agent of the subset is returned. *)
Theorem rank_complete (labels : list (string * string))
  (subset : list Agent) (query : string) (limit : nat) :
  (length (positives (scoreAll labels subset query)) <= limit)%nat ->
  Permutation (rank labels subset query limit)
    (positives (scoreAll labels subset query)) /\
  (forall a, In a subset -> 0 < scoreAgent labels a query ->
             In (mkScored a (scoreAgent labels a query))
               (rank labels subset query limit)).
Proof.
  intros Hlimit.
  assert (Hperm : Permutation (rank labels subset query limit)
                    (positives (scoreAll labels subset query))).
  { rewrite rank_unfold, firstn_all2; [apply sortStable_perm|].
    rewrite (Permutation_length (sortStable_perm _)). exact Hlimit. }
  split; [exact Hperm|].
  intros a Ha Hpos.
  apply (Permutation_in _ (Permutation_sym Hperm)).
  apply positives_In. simpl. auto.
Qed.

Lemma rank_complete_witness :
  In (mkScored Sample.firecrawl
        (scoreAgent Sample.labels Sample.firecrawl "scrape websites"))
    (rank Sample.labels Sample.agents "scrape websites" 1).
Proof.
  apply (rank_complete Sample.labels Sample.agents "scrape websites" 1).
  - vm_compute. lia.
  - simpl. auto.
  - vm_compute. reflexivity.
Defined.

(** X8. With a limit of at least one, the search answers with the
    no-results text exactly when no agent that passes the filter scores
    above zero. *)
Theorem search_no_results_iff (catalog : list Agent)
  (labels : list (string * string)) (query : string)
  (category pricing : option string) (limit : nat) :
  (1 <= limit)%nat ->
  (yagoo_search catalog labels query category pricing limit =
     noResultsText query <->
   forall a, In a (filterAgents catalog category pricing) ->
             scoreAgent labels a query <= 0).
Proof.
  intros Hlimit.
  set (filtered := filterAgents catalog category pricing).
  assert (Hempty :
    searchResults catalog labels query category pricing limit = [] <->
    forall a, In a filtered -> scoreAgent labels a query <= 0).
  { unfold searchResults. fold filtered. rewrite rank_unfold.
    rewrite (firstn_nil_iff _ _ Hlimit). split.
    - intros Hnil a Ha.
      destruct (Z.ltb_spec 0 (scoreAgent labels a query)) as [Hpos|Hle];
        [|exact Hle].
      assert (Hin : In (mkScored a (scoreAgent labels a query))
                      (positives (scoreAll labels filtered query)))
        by (apply positives_In; simpl; auto).
      apply (Permutation_in _ (Permutation_sym (sortStable_perm _))) in Hin.
      rewrite Hnil in Hin. destruct Hin.
    - intros Hall.
      assert (Hnone : positives (scoreAll labels filtered query) = []).
      { apply filter_none. intros item Hitem.
        unfold scoreAll in Hitem. apply in_map_iff in Hitem.
        destruct Hitem as [a [<- Ha]]. simpl.
        apply Z.ltb_ge. apply Hall, Ha. }
      rewrite Hnone. reflexivity. }
  rewrite <- Hempty. unfold yagoo_search.
  destruct (searchResults catalog labels query category pricing limit)
    as [|item rest] eqn:Hres; simpl.
  - split; reflexivity.
  - split; [|discriminate].
    intros Heq. apply (f_equal Spec.headChar) in Heq.
    rewrite searchText_head, noResultsText_head in Heq. discriminate.
Qed.

Lemma search_no_results_iff_witness :
  yagoo_search Sample.agents Sample.labels "zzz" None None 5 =
  noResultsText "zzz".
Proof.
  apply (search_no_results_iff Sample.agents Sample.labels "zzz" None None 5);
    [lia|].
  intros a Ha. simpl in Ha.
  destruct Ha as [<-|[<-|[<-|[]]]]; vm_compute; discriminate.
Defined.

(** X9. The first entry of a ranking has the highest score of the whole
    subset, and among the agents with that score it is the one that comes
    first in the subset. *)
Theorem top_result_is_best (labels : list (string * string))
  (subset : list Agent) (query : string) (limit : nat)
  (top : Scored) (rest : list Scored) :
  rank labels subset query limit = top :: rest ->
  (forall a, In a subset -> scoreAgent labels a query <= score top) /\
  exists before after,
    subset = before ++ agent top :: after /\
    score top = scoreAgent labels (agent top) query /\
    Forall (fun b => scoreAgent labels b query < score top) before.
Proof.
  intros Hrank.
  assert (Htop : In top (rank labels subset query limit))
    by (rewrite Hrank; left; reflexivity).
  apply rank_In in Htop. destruct Htop as [_ [Hscore Hpos]].
  rewrite rank_unfold in Hrank.
  set (scored := scoreAll labels subset query) in *.
  set (sorted := sortStable byScore (positives scored)) in *.
  assert (Hsorted : exists tail, sorted = top :: tail).
  { destruct sorted as [|x tail]; destruct limit; simpl in Hrank;
      try discriminate.
    injection Hrank as -> _. eauto. }
  destruct Hsorted as [tail Hsorted].
  assert (Hbest : forall a, In a subset ->
                            scoreAgent labels a query <= score top).
  { intros a Ha.
    destruct (Z.ltb_spec 0 (scoreAgent labels a query)) as [Hp|Hle]; [|lia].
    assert (Hin : In (mkScored a (scoreAgent labels a query)) sorted).
    { apply (Permutation_in _ (Permutation_sym (sortStable_perm _))).
      apply positives_In. simpl. auto. }
    pose proof (sortStable_sorted (positives scored)) as Hst.
    fold sorted in Hst. rewrite Hsorted in Hst, Hin.
    apply StronglySorted_inv in Hst. destruct Hst as [_ Hall].
    destruct Hin as [Heq|Hin]; [rewrite Heq; simpl; lia|].
    rewrite Forall_forall in Hall. specialize (Hall _ Hin).
    unfold descending in Hall. simpl in Hall. lia. }
  split; [exact Hbest|].
  assert (Hfirst : exists t,
            filter (hasScore (score top)) scored = top :: t).
  { rewrite <- (filter_filter_hasScore (score top)
                  (fun item => 0 <? score item) scored).
    - fold (positives scored).
      rewrite <- (sortStable_hasScore (score top) (positives scored)).
      fold sorted. rewrite Hsorted. simpl. unfold hasScore at 1.
      rewrite Z.eqb_refl. eauto.
    - intros item Hitem. unfold hasScore in Hitem.
      apply Z.eqb_eq in Hitem. rewrite Hitem. apply Z.ltb_lt, Hpos. }
  destruct Hfirst as [t Hfirst].
  apply filter_head_split in Hfirst.
  destruct Hfirst as [l1 [l2 [Hsplit Hl1]]].
  unfold scored, scoreAll in Hsplit.
  apply map_eq_app in Hsplit.
  destruct Hsplit as [before [tail2 [Hsubset [Hbefore Htail2]]]].
  apply map_eq_cons in Htail2.
  destruct Htail2 as [a [after [-> [Ha _]]]].
  exists before, after. subst top. simpl in *.
  split; [exact Hsubset|]. split; [reflexivity|].
  apply Forall_forall. intros b Hb.
  assert (Hle : scoreAgent labels b query <= scoreAgent labels a query).
  { apply Hbest. rewrite Hsubset. apply in_or_app. left. exact Hb. }
  rewrite Forall_forall in Hl1.
  assert (Hne : hasScore (scoreAgent labels a query)
                  (mkScored b (scoreAgent labels b query)) = false).
  { apply Hl1. rewrite <- Hbefore. apply in_map_iff. eauto. }
  unfold hasScore in Hne. simpl in Hne. apply Z.eqb_neq in Hne. lia.
Qed.

Lemma top_result_is_best_witness :
  scoreAgent Sample.labels Sample.midjourney "code data" <= 10.
Proof.
  destruct (rank Sample.labels Sample.agents "code data" 5)
    as [|top rest] eqn:Hrank; [discriminate|].
  pose proof (top_result_is_best Sample.labels Sample.agents "code data" 5
                top rest Hrank) as [Hbest _].
  assert (Htop : score top = 10)
    by (vm_compute in Hrank; injection Hrank as <- _; reflexivity).
  rewrite <- Htop. apply Hbest. simpl. auto.
Defined.

(** ** The filter steps *)

(** X10. The category step and the pricing step can be taken in either
    order, one at a time or together, with the same outcome; with neither
    parameter the catalog is returned as it is; the filter never adds an
    agent. *)
Theorem filter_steps_commute (catalog : list Agent)
  (category pricing : option string) :
  filterAgents (filterAgents catalog category None) None pricing =
    filterAgents catalog category pricing /\
  filterAgents (filterAgents catalog None pricing) category None =
    filterAgents catalog category pricing /\
  filterAgents catalog None None = catalog /\
  (length (filterAgents catalog category pricing) <= length catalog)%nat /\
  (forall a, In a (filterAgents catalog category pricing) -> In a catalog).
Proof.
  rewrite !filterAgents_keeps, !filter_filter.
  repeat split.
  - apply filter_ext. intros a. unfold Spec.keeps. simpl.
    rewrite andb_true_r. reflexivity.
  - apply filter_ext. intros a. unfold Spec.keeps. simpl.
    rewrite andb_true_r. apply andb_comm.
  - apply filter_all.
  - apply filter_length_le.
  - intros a Ha. apply filter_In in Ha. tauto.
Qed.

(** ** Lookup by slug, continued *)

Section LookupFacts.

Variable AGENTS : list Agent.

Lemma findAgent_unique (catalog : list Agent) (a : Agent) :
  NoDup (map slug catalog) -> In a catalog ->
  findAgent catalog (slug a) = Some a.
Proof.
  unfold findAgent.
  induction catalog as [|x catalog IH]; intros Hnodup Hin; [destruct Hin|].
  simpl in *. inversion Hnodup as [|? ? Hnotin Hrest]; subst.
  destruct Hin as [->|Hin].
  - rewrite String.eqb_refl. reflexivity.
  - destruct (String.eqb_spec (slug x) (slug a)) as [Heq|Hne].
    + destruct Hnotin. rewrite Heq. apply in_map, Hin.
    + apply IH; assumption.
Qed.

Lemma suggestions_candidates (s : string) :
  suggestionsFor AGENTS s =
  map slug
    (firstn 3
       (filter (fun a =>
                  Js.includes (slug a) s ||
                  Js.includes (Js.toLowerCase (name a)) (Js.toLowerCase s))
          AGENTS)).
Proof. reflexivity. Qed.

End LookupFacts.

(** X11. In a catalog whose slugs are distinct, looking an agent up by its
    own slug finds that very agent and answers with its full profile. *)
Theorem lookup_own_slug (AGENTS : list Agent)
  (labels : list (string * string)) (a : Agent) :
  NoDup (map slug AGENTS) ->
  In a AGENTS ->
  findAgent AGENTS (slug a) = Some a /\
  yagoo_get_agent AGENTS labels (slug a) = formatAgentDetail labels a.
Proof.
  intros Hnodup Hin.
  pose proof (findAgent_unique AGENTS a Hnodup Hin) as Hfind.
  split; [exact Hfind|].
  unfold yagoo_get_agent. rewrite Hfind. reflexivity.
Qed.

Lemma lookup_own_slug_witness :
  yagoo_get_agent Sample.agents Sample.labels "midjourney" =
  formatAgentDetail Sample.labels Sample.midjourney.
Proof.
  apply (lookup_own_slug Sample.agents Sample.labels Sample.midjourney).
  - simpl. repeat constructor; simpl; intuition discriminate.
  - simpl. auto.
Defined.

(** X12. On a miss, every suggestion is the slug of a catalog agent and
    differs from the slug asked for, and there is a suggestion exactly when
    some agent's slug contains the query slug or its lower-cased name
    contains the lower-cased query slug. *)
Theorem suggestions_sound (AGENTS : list Agent) (s : string) :
  (forall a, In a AGENTS -> slug a <> s) ->
  Forall (fun suggestion =>
            suggestion <> s /\
            exists a, In a AGENTS /\ slug a = suggestion)
    (suggestionsFor AGENTS s) /\
  (suggestionsFor AGENTS s <> [] <->
   exists a, In a AGENTS /\
             (Spec.Contains (slug a) s \/
              Spec.Contains (Js.toLowerCase (name a)) (Js.toLowerCase s))).
Proof.
  intros Hmiss. rewrite suggestions_candidates.
  set (p := fun a => Js.includes (slug a) s ||
                     Js.includes (Js.toLowerCase (name a)) (Js.toLowerCase s)).
  split.
  - apply Forall_forall. intros suggestion Hin.
    apply in_map_iff in Hin. destruct Hin as [a [<- Ha]].
    apply firstn_incl, filter_In in Ha. destruct Ha as [Ha _].
    split; [apply Hmiss, Ha|eauto].
  - split.
    + intros Hne.
      destruct (filter p AGENTS) as [|a rest] eqn:Hfilter;
        [destruct Hne; reflexivity|].
      assert (Ha : In a (filter p AGENTS))
        by (rewrite Hfilter; left; reflexivity).
      apply filter_In in Ha. destruct Ha as [Ha Hp].
      exists a. split; [exact Ha|].
      unfold p in Hp. rewrite orb_true_iff, !includes_spec in Hp. exact Hp.
    + intros [a [Ha Hmatch]].
      assert (Hin : In a (filter p AGENTS)).
      { apply filter_In. split; [exact Ha|].
        unfold p. rewrite orb_true_iff, !includes_spec. exact Hmatch. }
      destruct (filter p AGENTS) as [|b rest]; [destruct Hin|].
      simpl. discriminate.
Qed.

Lemma suggestions_sound_witness :
  suggestionsFor Sample.agents "curso" <> [].
Proof.
  apply (suggestions_sound Sample.agents "curso").
  - intros a Ha. simpl in Ha.
    destruct Ha as [<-|[<-|[<-|[]]]]; discriminate.
  - exists Sample.cursor. split; [simpl; auto|].
    left. exists EmptyString, "r". reflexivity.
Defined.

(** ** The counting map *)

Section CountingMap.

Lemma count_loop_lookup (catalog : list Agent) (counts : gmap string nat)
  (key : string) :
  fold_left countStep catalog counts !! key =
  if Nat.eqb (Spec.primaryCount catalog key) 0 then counts !! key
  else Some (default 0 (counts !! key) + Spec.primaryCount catalog key)%nat.
Proof.
  revert counts.
  induction catalog as [|a catalog IH]; intros counts; [reflexivity|].
  simpl fold_left. rewrite IH, primaryCount_cons. unfold countStep.
  destruct (String.eqb_spec (primary_category a) key) as [Heq|Hne].
  - subst key. rewrite lookup_insert_eq. simpl.
    destruct (Nat.eqb_spec (Spec.primaryCount catalog (primary_category a)) 0)
      as [H0|Hn0]; rewrite ?H0; f_equal; lia.
  - rewrite lookup_insert_ne by exact Hne. reflexivity.
Qed.

Lemma primaryCount_zero (catalog : list Agent) (key : string) :
  Spec.primaryCount catalog key = 0%nat <->
  forall a, In a catalog -> primary_category a <> key.
Proof.
  unfold Spec.primaryCount. split.
  - intros Hlen a Ha Heq.
    assert (Hin : In a (filter (fun a => String.eqb (primary_category a) key)
                          catalog))
      by (apply filter_In; split; [exact Ha|apply String.eqb_eq, Heq]).
    destruct (filter _ catalog); [destruct Hin|discriminate].
  - intros Hall. rewrite filter_none; [reflexivity|].
    intros a Ha. apply String.eqb_neq, Hall, Ha.
Qed.

Lemma count_loop_size (catalog : list Agent) (counts : gmap string nat) :
  (size (fold_left countStep catalog counts) <= size counts + length catalog)%nat.
Proof.
  revert counts.
  induction catalog as [|a catalog IH]; intros counts; simpl; [lia|].
  etransitivity; [apply IH|].
  unfold countStep.
  destruct (counts !! primary_category a) as [n|] eqn:Hlookup.
  - rewrite map_size_insert_Some by eauto. lia.
  - rewrite map_size_insert_None by exact Hlookup. lia.
Qed.

End CountingMap.

(** X13. The counting map holds an entry exactly for the primary
    categories that occur in the catalog, each with the number of agents of
    that category, never zero; so the number of categories in the heading
    is the number of distinct primary categories, at most the number of
    agents. *)
Theorem category_counts_map (AGENTS : list Agent) :
  (forall key n,
      categoryCounts AGENTS !! key = Some n ->
      n = Spec.primaryCount AGENTS key /\ (1 <= n)%nat) /\
  (forall key,
      categoryCounts AGENTS !! key = None <->
      forall a, In a AGENTS -> primary_category a <> key) /\
  dom (categoryCounts AGENTS) =
    (list_to_set (map primary_category AGENTS) : gset string) /\
  (size (categoryCounts AGENTS) <= length AGENTS)%nat.
Proof.
  assert (Hlookup : forall key,
    categoryCounts AGENTS !! key =
    if Nat.eqb (Spec.primaryCount AGENTS key) 0 then None
    else Some (Spec.primaryCount AGENTS key)).
  { intros key. unfold categoryCounts.
    rewrite count_loop_lookup, lookup_empty. reflexivity. }
  split; [|split; [|split]].
  - intros key n. rewrite Hlookup.
    destruct (Nat.eqb_spec (Spec.primaryCount AGENTS key) 0);
      [discriminate|].
    intros [= <-]. lia.
  - intros key. rewrite Hlookup, <- primaryCount_zero.
    destruct (Nat.eqb_spec (Spec.primaryCount AGENTS key) 0);
      split; congruence.
  - apply set_eq. intros key.
    rewrite elem_of_dom, elem_of_list_to_set, list_elem_of_In, in_map_iff.
    rewrite Hlookup.
    destruct (Nat.eqb_spec (Spec.primaryCount AGENTS key) 0) as [H0|Hn0].
    + rewrite primaryCount_zero in H0. split.
      * intros [n Hn]. discriminate.
      * intros [a [Heq Ha]]. destruct (H0 a Ha Heq).
    + split; [|eauto]. intros _.
      destruct (filter (fun a => String.eqb (primary_category a) key) AGENTS)
        as [|a rest] eqn:Hfilter;
        [unfold Spec.primaryCount in Hn0; rewrite Hfilter in Hn0;
         destruct Hn0; reflexivity|].
      assert (Ha : In a (filter (fun a => String.eqb (primary_category a) key)
                           AGENTS))
        by (rewrite Hfilter; left; reflexivity).
      apply filter_In in Ha. destruct Ha as [Ha Heq].
      apply String.eqb_eq in Heq. eauto.
  - pose proof (count_loop_size AGENTS ∅) as Hsize.
    rewrite map_size_empty in Hsize. exact Hsize.
Qed.

Lemma category_counts_map_witness :
  categoryCounts Sample.agents !! "creative_design" = Some 1%nat /\
  categoryCounts Sample.agents !! "no_such_category" = None.
Proof.
  split.
  - destruct (categoryCounts Sample.agents !! "creative_design")
      as [n|] eqn:Hlookup.
    + destruct (proj1 (category_counts_map Sample.agents) _ _ Hlookup)
        as [-> _].
      reflexivity.
    + pose proof (proj1 (proj1 (proj2 (category_counts_map Sample.agents))
                           "creative_design") Hlookup Sample.midjourney)
        as Hnone.
      destruct Hnone; [simpl; auto|reflexivity].
  - apply (proj1 (proj2 (category_counts_map Sample.agents))).
    intros a Ha. simpl in Ha.
    destruct Ha as [<-|[<-|[<-|[]]]]; discriminate.
Defined.

(** ** Comparison, continued *)

Section CompareMore.

Variable AGENTS : list Agent.

Lemma tooFewText_head : Spec.headChar tooFewText = Some "N"%char.
Proof. reflexivity. Qed.

Lemma unresolved_nil_iff (slugs : list string) :
  Spec.unresolved AGENTS slugs = [] <->
  Forall (fun s => exists a, In a AGENTS /\ slug a = s) slugs.
Proof.
  split.
  - intros Hnone. apply Forall_forall. intros s Hs.
    destruct (findAgent AGENTS s) as [a|] eqn:Hfind.
    + exists a. apply findAgent_Some, Hfind.
    + assert (Hin : In s (Spec.unresolved AGENTS slugs)).
      { apply unresolved_In. split; [exact Hs|].
        apply findAgent_None, Hfind. }
      rewrite Hnone in Hin. destruct Hin.
  - intros Hall. apply filter_none. intros s Hs.
    rewrite Forall_forall in Hall.
    destruct (findAgent_exists AGENTS s (Hall s Hs)) as [a ->]. reflexivity.
Qed.

Lemma resolved_slugs (slugs : list string) :
  Spec.unresolved AGENTS slugs = [] ->
  map slug (Spec.resolved AGENTS slugs) = slugs /\
  Forall (fun a => In a AGENTS) (Spec.resolved AGENTS slugs).
Proof.
  induction slugs as [|s slugs IH]; simpl; intros Hnone;
    [split; constructor|].
  destruct (findAgent AGENTS s) as [a|] eqn:Hfind; [|discriminate].
  apply findAgent_Some in Hfind. destruct Hfind as [Hin Hslug].
  destruct (IH Hnone) as [Hmap Hall]. simpl.
  split; [rewrite Hslug, Hmap; reflexivity|].
  constructor; assumption.
Qed.

Lemma compareBranch_cases (slugs : list string) :
  compareBranch AGENTS slugs =
  match Spec.unresolved AGENTS slugs with
  | _ :: _ => UnresolvedSlugs (Spec.unresolved AGENTS slugs)
  | [] =>
      if (length slugs <? 2)%nat then TooFewAgents
      else Comparison (Spec.resolved AGENTS slugs)
  end.
Proof.
  unfold compareBranch. rewrite resolveSlugs_spec.
  pose proof (resolve_lengths AGENTS slugs) as Hsum.
  destruct (Spec.unresolved AGENTS slugs) as [|s rest]; [|reflexivity].
  simpl in *. rewrite Nat.add_0_r in Hsum. rewrite Hsum. reflexivity.
Qed.

End CompareMore.

(** X14. The minimum-count answer is given exactly to a call with fewer
    than two slugs of which every one resolves. *)
Theorem compare_min_count_iff (AGENTS : list Agent) (slugs : list string) :
  yagoo_compare AGENTS slugs = tooFewText <->
  (length slugs < 2)%nat /\
  Forall (fun s => exists a, In a AGENTS /\ slug a = s) slugs.
Proof.
  unfold yagoo_compare. rewrite compareBranch_cases.
  rewrite <- unresolved_nil_iff.
  destruct (Spec.unresolved AGENTS slugs) as [|s rest]; simpl.
  - destruct (Nat.ltb_spec (length slugs) 2) as [Hlt|Hge]; simpl.
    + split; auto.
    + split; [|lia].
      intros Heq. apply (f_equal Spec.headChar) in Heq.
      rewrite comparisonText_head, tooFewText_head in Heq. discriminate.
  - split; [|intros [_ H]; discriminate].
    intros Heq. apply (f_equal Spec.headChar) in Heq.
    rewrite compareNotFoundText_head, tooFewText_head in Heq. discriminate.
Qed.

(** X15. When a call is answered with a comparison, the compared agents
    are catalog agents that correspond one to one, in order, to the slugs of
    the call (a repeated slug gives a repeated agent). *)
Theorem compare_columns_match_slugs (AGENTS : list Agent)
  (slugs : list string) (agents : list Agent) :
  compareBranch AGENTS slugs = Comparison agents ->
  map slug agents = slugs /\
  Forall (fun a => In a AGENTS) agents /\
  length agents = length slugs /\
  (2 <= length agents)%nat.
Proof.
  rewrite compareBranch_cases.
  destruct (Spec.unresolved AGENTS slugs) as [|s rest] eqn:Hnone;
    [|discriminate].
  destruct (Nat.ltb_spec (length slugs) 2) as [Hlt|Hge]; [discriminate|].
  intros [= <-].
  destruct (resolved_slugs AGENTS slugs Hnone) as [Hmap Hall].
  assert (Hlen : length (Spec.resolved AGENTS slugs) = length slugs)
    by (rewrite <- Hmap at 2; rewrite length_map; reflexivity).
  repeat split; [exact Hmap|exact Hall|exact Hlen|lia].
Qed.

Lemma compare_columns_match_slugs_witness :
  map slug [Sample.cursor; Sample.firecrawl; Sample.cursor] =
  ["cursor"; "firecrawl"; "cursor"].
Proof.
  apply (compare_columns_match_slugs Sample.agents
           ["cursor"; "firecrawl"; "cursor"]).
  reflexivity.
Defined.

Lemma compare_min_count_iff_witness :
  yagoo_compare Sample.agents ["cursor"] = tooFewText.
Proof.
  apply (compare_min_count_iff Sample.agents ["cursor"]).
  split; [simpl; lia|].
  repeat constructor. exists Sample.cursor. simpl. auto.
Defined.

(** ** The protocol-capable listing *)

(** X16. The listing holds, in catalog order, exactly the catalog agents
    with protocol support switched on and a configuration present.  Every
    listed agent therefore has the configuration its entry prints (the
    non-null assertions of the handler never meet a missing value), and an
    agent is listed exactly when its full profile has a configuration
    section. *)
Theorem mcp_listing_agents (AGENTS : list Agent) :
  (forall a,
      In a (mcpAgents AGENTS) <->
      In a AGENTS /\ mcp_support a = true /\ mcp_config a <> None) /\
  Forall (fun a => exists cfg,
            mcp_config a = Some cfg /\ In (connectionBlock cfg) (mcpEntry a))
    (mcpAgents AGENTS) /\
  (forall a, In a AGENTS ->
             (In a (mcpAgents AGENTS) <-> detailConfig a <> [])) /\
  (forall l1 l2, AGENTS = l1 ++ l2 ->
                 mcpAgents AGENTS = mcpAgents l1 ++ mcpAgents l2).
Proof.
  assert (Hin : forall a,
    In a (mcpAgents AGENTS) <->
    In a AGENTS /\ mcp_support a = true /\ mcp_config a <> None).
  { intros a. unfold mcpAgents, mcpConfigOf. rewrite filter_In.
    destruct (mcp_support a), (mcp_config a); intuition congruence. }
  split; [exact Hin|]. split; [|split].
  - apply Forall_forall. intros a Ha. apply Hin in Ha.
    destruct Ha as [_ [_ Hcfg]].
    destruct (mcp_config a) as [cfg|] eqn:Hconfig; [|congruence].
    exists cfg. split; [reflexivity|].
    unfold mcpEntry. rewrite Hconfig. simpl. auto 10.
  - intros a Ha. rewrite Hin. unfold detailConfig, mcpConfigOf.
    destruct (mcp_support a), (mcp_config a); simpl;
      intuition congruence.
  - intros l1 l2 ->. unfold mcpAgents. apply filter_app.
Qed.

(** ** Validated search calls *)

(** X17. A search input passes the schema exactly when its query has 2 to
    500 code units and its limit, if given, is from 1 to 20.  The handler
    then runs with that limit, or with 5 when none was given, and returns
    at most that many results, so never more than 20. *)
Theorem search_input_bounds (AGENTS : list Agent)
  (labels : list (string * string)) (input : Schema.SearchInput) :
  (Schema.parseSearchInput input <> None <->
   (2 <= String.length (Schema.query input) <= 500)%nat /\
   forall l, Schema.limit input = Some l -> 1 <= l <= 20) /\
  (forall params,
      Schema.parseSearchInput input = Some params ->
      Schema.params_query params = Schema.query input /\
      Schema.params_category params = Schema.category input /\
      Schema.params_pricing params = Schema.pricing input /\
      Z.of_nat (Schema.params_limit params) =
        match Schema.limit input with Some l => l | None => 5 end /\
      let results :=
        searchResults AGENTS labels (Schema.params_query params)
          (Schema.params_category params) (Schema.params_pricing params)
          (Schema.params_limit params) in
      (length results <= Schema.params_limit params)%nat /\
      (length results <= 20)%nat).
Proof.
  unfold Schema.parseSearchInput.
  destruct (Nat.leb_spec 2 (String.length (Schema.query input))) as [H2|H2];
    destruct (Nat.leb_spec (String.length (Schema.query input)) 500)
      as [H500|H500]; simpl;
    try (split; [split; [congruence|lia]|discriminate]).
  destruct (Schema.limit input) as [l|].
  - destruct (Z.leb_spec 1 l) as [H1|H1];
      destruct (Z.leb_spec l 20) as [H20|H20]; simpl;
      try (split; [split; [congruence|];
                   intros [_ Hl]; specialize (Hl l eq_refl); lia
                  |discriminate]).
    split.
    + split; [|discriminate]. intros _. split; [lia|].
      intros l' [= <-]. lia.
    + intros params [= <-]. simpl.
      repeat split; try lia.
      * unfold searchResults. apply firstn_le_length.
      * unfold searchResults.
        pose proof (firstn_le_length (Z.to_nat l)
          (sortStable byScore
             (positives
                (scoreAll labels
                   (filterAgents AGENTS (Schema.category input)
                      (Schema.pricing input))
                   (Schema.query input))))) as Hle.
        rewrite <- rank_unfold in Hle. lia.
  - split.
    + split; [|discriminate]. intros _. split; [lia|discriminate].
    + intros params [= <-]. simpl.
      repeat split.
      * unfold searchResults. apply firstn_le_length.
      * unfold searchResults.
        pose proof (firstn_le_length 5
          (sortStable byScore
             (positives
                (scoreAll labels
                   (filterAgents AGENTS (Schema.category input)
                      (Schema.pricing input))
                   (Schema.query input))))) as Hle.
        rewrite <- rank_unfold in Hle. lia.
Qed.

Lemma search_input_bounds_witness :
  exists params,
    Schema.parseSearchInput
      (Schema.mkSearchInput "scrape websites" None None None) = Some params /\
    Schema.params_limit params = 5%nat.
Proof.
  destruct (Schema.parseSearchInput
              (Schema.mkSearchInput "scrape websites" None None None))
    as [params|] eqn:Hparse; [|discriminate].
  exists params. split; [reflexivity|].
  pose proof (proj2 (search_input_bounds Sample.agents Sample.labels
                       (Schema.mkSearchInput "scrape websites" None None None))
                params Hparse) as (_ & _ & _ & Hlimit & _).
  simpl in Hlimit. lia.
Defined.

(** ** White space in the query *)

Section QueryWhiteSpace.

Lemma lowerChar_whiteSpace (c : ascii) :
  Js.isWhiteSpace (Js.lowerChar c) = Js.isWhiteSpace c.
Proof. destruct c as [[] [] [] [] [] [] [] []]; vm_compute; reflexivity. Qed.

Lemma toLowerCase_append (a b : string) :
  Js.toLowerCase (a +:+ b) = Js.toLowerCase a +:+ Js.toLowerCase b.
Proof.
  induction a as [|c a IH]; [reflexivity|].
  rewrite append_cons. simpl. rewrite IH. reflexivity.
Qed.

Lemma toLowerCase_chars (s : string) :
  String.list_ascii_of_string (Js.toLowerCase s) =
  map Js.lowerChar (String.list_ascii_of_string s).
Proof. induction s as [|c s IH]; simpl; [|rewrite IH]; reflexivity. Qed.

Lemma toLowerCase_NoWhiteSpace (w : string) :
  Spec.NoWhiteSpace w -> Spec.NoWhiteSpace (Js.toLowerCase w).
Proof.
  unfold Spec.NoWhiteSpace. rewrite toLowerCase_chars, Forall_map.
  apply Forall_impl. intros c Hc. rewrite lowerChar_whiteSpace. exact Hc.
Qed.

Lemma toLowerCase_WhiteSpaceRun (sep : string) :
  Spec.WhiteSpaceRun sep -> Spec.WhiteSpaceRun (Js.toLowerCase sep).
Proof.
  intros [Hne Hall]. split.
  - destruct sep; [congruence|discriminate].
  - rewrite toLowerCase_chars, Forall_map.
    eapply Forall_impl; [|exact Hall].
    intros c Hc. rewrite lowerChar_whiteSpace. exact Hc.
Qed.

Lemma toLowerCase_StartsWithToken (s : string) :
  Spec.StartsWithToken s -> Spec.StartsWithToken (Js.toLowerCase s).
Proof.
  destruct s as [|c s]; simpl; [auto|].
  rewrite lowerChar_whiteSpace. auto.
Qed.

End QueryWhiteSpace.

(** X18. The words of a query do not depend on how much white space
    separates its tokens or precedes them: a token, any run of white space,
    and the rest give the token's lower-case form (when longer than two
    code units) followed by the words of the rest, and leading white space
    adds no word. *)
Theorem query_words_whitespace (w sep rest : string) :
  Spec.NoWhiteSpace w ->
  Spec.WhiteSpaceRun sep ->
  Spec.StartsWithToken rest ->
  Spec.queryWords (w +:+ sep +:+ rest) =
    (if (2 <? String.length w)%nat then [Js.toLowerCase w] else []) ++
    Spec.queryWords rest /\
  Spec.queryWords (sep +:+ rest) = Spec.queryWords rest.
Proof.
  intros Hw Hsep Hrest.
  assert (Hlen : String.length (Js.toLowerCase w) = String.length w)
    by (induction w as [|c u IH]; simpl;
        [|rewrite IH by (inversion Hw; assumption)]; reflexivity).
  unfold Spec.queryWords. rewrite !toLowerCase_append.
  split.
  - unfold Js.splitWhiteSpace at 1.
    rewrite (splitRun_piece EmptyString (Js.toLowerCase w)
               (Js.toLowerCase sep) (Js.toLowerCase rest)
               (toLowerCase_NoWhiteSpace w Hw)
               (toLowerCase_WhiteSpaceRun sep Hsep)
               (toLowerCase_StartsWithToken rest Hrest)).
    rewrite append_nil_l. simpl filter. rewrite Hlen.
    destruct (2 <? String.length w)%nat; reflexivity.
  - unfold Js.splitWhiteSpace at 1.
    pose proof (splitRun_piece EmptyString EmptyString
                  (Js.toLowerCase sep) (Js.toLowerCase rest)
                  ltac:(constructor)
                  (toLowerCase_WhiteSpaceRun sep Hsep)
                  (toLowerCase_StartsWithToken rest Hrest)) as Hsplit.
    rewrite !append_nil_l in Hsplit. rewrite Hsplit. reflexivity.
Qed.

Lemma query_words_whitespace_witness :
  Spec.queryWords ("Scrape" +:+ "   " +:+ "websites") =
  Spec.queryWords ("Scrape" +:+ " " +:+ "websites").
Proof.
  rewrite (proj1 (query_words_whitespace "Scrape" "   " "websites"
                    ltac:(repeat constructor)
                    ltac:(split; [discriminate|repeat constructor])
                    eq_refl)).
  rewrite (proj1 (query_words_whitespace "Scrape" " " "websites"
                    ltac:(repeat constructor)
                    ltac:(split; [discriminate|repeat constructor])
                    eq_refl)).
  reflexivity.
Defined.

(** ** Follow-up calls *)

(** X19. A suggestion is never a dead end: every slug suggested on a miss
    resolves, on a follow-up lookup, to the full profile of a catalog agent
    with that slug. *)
Theorem suggestions_resolve (AGENTS : list Agent)
  (labels : list (string * string)) (s : string) :
  Forall (fun suggestion =>
            exists a, In a AGENTS /\ slug a = suggestion /\
                      yagoo_get_agent AGENTS labels suggestion =
                        formatAgentDetail labels a)
    (suggestionsFor AGENTS s).
Proof.
  apply Forall_forall. intros suggestion Hin.
  rewrite suggestions_candidates in Hin.
  apply in_map_iff in Hin. destruct Hin as [b [<- Hb]].
  apply firstn_incl, filter_In in Hb. destruct Hb as [Hb _].
  destruct (findAgent_exists AGENTS (slug b)) as [a Hfind]; [eauto|].
  destruct (findAgent_Some AGENTS _ _ Hfind) as [Ha Hslug].
  exists a. repeat split; [exact Ha|exact Hslug|].
  unfold yagoo_get_agent. rewrite Hfind. reflexivity.
Qed.

(** X20. The comparison and the lookup agree on which slugs exist: the
    slugs a compare call reports as not found are exactly those of its
    slugs that a lookup answers with the not-found text. *)
Theorem compare_and_lookup_agree (AGENTS : list Agent)
  (labels : list (string * string)) (slugs : list string) (s : string) :
  In s (snd (resolveSlugs AGENTS slugs)) <->
  In s slugs /\ yagoo_get_agent AGENTS labels s = notFoundText AGENTS s.
Proof.
  rewrite resolveSlugs_spec. simpl. rewrite unresolved_In.
  rewrite <- findAgent_None. unfold yagoo_get_agent.
  destruct (findAgent AGENTS s) as [a|]; split; intros [Hs H];
    split; try exact Hs; try reflexivity; discriminate H.
Qed.
